(** * QuantFilter: the comparison engine of the quantum noise filter

    A shallow embedding of [QuantFilter.py].  The script works on binary64
    floats; every finite float is a rational number, so scalars are modelled
    as [Q] and the arithmetic is carried out exactly (rounding, overflow and
    underflow are abstracted away).  The one non-finite value the script can
    produce, the NaN that [np.mean] returns on an empty array, is kept as a
    separate constructor of [float64].

    Where rounding decides a statement, the survival model is also given
    in binary64 itself ([logical_survival_f64], on primitive floats).

    Python exceptions are modelled with a small error monad [result]. *)

From Stdlib Require Import QArith Qpower Qminmax Lqa Lia ZArith.
From Stdlib Require Import List String Bool.
From Stdlib Require Import Floats.
Import ListNotations.

Local Open Scope Q_scope.

(** ** Exceptions and the error monad *)

Inductive exn : Type :=
| ValueError (msg : string)
| IndexError.

Inductive result (A : Type) : Type :=
| Ok (a : A)
| Raise (e : exn).

Arguments Ok {A} a.
Arguments Raise {A} e.

Definition bind {A B : Type} (m : result A) (k : A -> result B) : result B :=
  match m with
  | Ok a => k a
  | Raise e => Raise e
  end.

Notation "x <- m ;; k" := (bind m (fun x => k))
  (at level 61, m at next level, right associativity).

(** A list comprehension [[f(x) for x in xs]] whose body may raise: the
    elements are evaluated left to right and the first exception aborts. *)
Fixpoint comprehension {A B : Type} (f : A -> result B) (xs : list A)
  : result (list B) :=
  match xs with
  | [] => Ok []
  | x :: xs' =>
      y <- f x ;;
      ys <- comprehension f xs' ;;
      Ok (y :: ys)
  end.

(** ** Scalars *)

(** Values of NumPy's float64 as far as the script produces them. *)
Inductive float64 : Type :=
| Finite (q : Q)
| NaN.

Definition Qlt_bool (x y : Q) : bool := negb (Qle_bool y x).

(** [np.maximum(a, b)] on scalars. *)
Definition np_maximum (a b : Q) : Q := if Qle_bool a b then b else a.

(** [bool.astype(int)] / the value a bool takes when stored in a float array. *)
Definition of_bool (b : bool) : Q := if b then 1 else 0.

(** [np.linspace(start, stop, num)]: [num] evenly spaced samples, end points
    included. *)
Definition linspace (start stop : Q) (num : nat) : list Q :=
  match num with
  | O => []
  | S O => [start]
  | S m =>
      map (fun i => start + inject_Z (Z.of_nat i) * ((stop - start) / inject_Z (Z.of_nat m)))
          (seq 0 num)
  end.

(** ** Parameters *)

Definition codes : list string :=
  ["bit-flip"; "phase-flip"; "depolarizing"]%string.

Definition n_qubits : Z := 1048576.

Definition p_vals : list Q := linspace 0 1 41.

(** The two threshold dictionaries, as association lists in insertion order. *)
Definition threshold_QEC : list (string * Q) :=
  [("bit-flip", 1 # 2); ("phase-flip", 1 # 2); ("depolarizing", 1 # 2)]%string.

Definition threshold_AUIL : list (string * Q) :=
  map (fun c => (c, 1 / inject_Z n_qubits)) codes.

(** Membership test of Python's [code in [...]] on strings. *)
Fixpoint str_in (s : string) (l : list string) : bool :=
  match l with
  | [] => false
  | x :: l' => String.eqb s x || str_in s l'
  end.

(** ** QEC logical survival functions *)

Definition logical_survival (code : string) (p : Q) : result Q :=
  if str_in code ["bit-flip"; "phase-flip"]%string then
    Ok ((1 - p) ^ n_qubits
        + inject_Z n_qubits * p * (1 - p) ^ (n_qubits - 1))
  else if String.eqb code "depolarizing" then
    Ok ((1 - p) ^ n_qubits)
  else
    Raise (ValueError "Unknown code").

Definition AUIL_signal (code : string) (p : Q) : Q :=
  np_maximum 0 (1 - inject_Z n_qubits * p).

(** [AUIL_signal] applied to an array: NumPy broadcasts the arithmetic and
    [np.maximum] over the elements. *)
Definition AUIL_signal_array (code : string) (ps : list Q) : list Q :=
  map (AUIL_signal code) ps.

(** ** Data aggregation

    The script fills [QEC_curves] and [AUIL_curves] for the module-level grid
    [p_vals]; here the grid is an argument, so that the statements below hold
    for every grid and in particular for [p_vals]. *)

Definition QEC_curve (grid : list Q) (code : string) : result (list Q) :=
  comprehension (logical_survival code) grid.

Definition AUIL_curve (grid : list Q) (code : string) : list Q :=
  map (AUIL_signal code) grid.

(** Elementwise binary operation on two arrays of the same shape. *)
Fixpoint elementwise {A B C : Type} (f : A -> B -> C) (xs : list A) (ys : list B)
  : list C :=
  match xs, ys with
  | x :: xs', y :: ys' => f x y :: elementwise f xs' ys'
  | _, _ => []
  end.

(** ** Residual (QEC - AUIL per code) *)

Definition diff (grid : list Q) (code : string) : result (list Q) :=
  qec <- QEC_curve grid code ;;
  Ok (elementwise Qminus qec (AUIL_curve grid code)).

(** ** True / false positive rates *)

Definition count_true (bs : list bool) : nat :=
  List.length (filter (fun b => b) bs).

(** [np.mean] of a boolean array.  On an empty array NumPy evaluates 0/0,
    warns and returns NaN; it does not raise. *)
Definition np_mean (bs : list bool) : float64 :=
  match bs with
  | [] => NaN
  | _ :: _ =>
      Finite (inject_Z (Z.of_nat (count_true bs))
              / inject_Z (Z.of_nat (List.length bs)))
  end.

(** [(curve > 0.5).astype(int)] *)
Definition above_half (curve : list Q) : list Z :=
  map (fun v => if Qlt_bool (1 # 2) v then 1%Z else 0%Z) curve.

(** One iteration of the loop over [codes]: the pair [(tp, fp)]. *)
Definition rates (grid : list Q) (code : string) : result (float64 * float64) :=
  qec <- QEC_curve grid code ;;
  let truth := above_half qec in
  let pred := above_half (AUIL_curve grid code) in
  let tp := np_mean (elementwise (fun t d => Z.eqb t 1 && Z.eqb d 1) truth pred) in
  let fp := np_mean (elementwise (fun t d => Z.eqb t 0 && Z.eqb d 1) truth pred) in
  Ok (tp, fp).

(** The lists [true_pos] and [false_pos] after the loop. *)
Definition true_false_pos (grid : list Q)
  : result (list float64 * list float64) :=
  rs <- comprehension (rates grid) codes ;;
  Ok (map fst rs, map snd rs).

(** ** Single run trace (simulated) *)

(** [a[i] = v] on an array: an index out of range raises. *)
Fixpoint setitem (a : list Q) (i : nat) (v : Q) : result (list Q) :=
  match a, i with
  | [], _ => Raise IndexError
  | _ :: a', O => Ok (v :: a')
  | x :: a', S i' => a'' <- setitem a' i' v ;; Ok (x :: a'')
  end.

Definition enumerate {A : Type} (l : list A) : list (nat * A) :=
  combine (seq 0 (List.length l)) l.

Section SingleRun.

(** The process-wide pseudo-random generator: its state, seeding, and
    [np.random.rand()], which returns one sample and the next state. *)
Variable RandomState : Type.
Variable seed : Z -> RandomState.
Variable rand : RandomState -> Q * RandomState.

(** The body of [for i, p in enumerate(single_run_p)].  The left operand
    of [<] is evaluated first, so the sample is drawn before the survival
    probability is computed. *)
Fixpoint trace_loop (code : string) (ips : list (nat * Q))
         (g : RandomState) (logical_bits : list Q)
  : result (list Q * RandomState) :=
  match ips with
  | [] => Ok (logical_bits, g)
  | (i, p) :: rest =>
      let (u, g') := rand g in
      s <- logical_survival code p ;;
      let survive := Qlt_bool u s in
      bits <- setitem logical_bits i (of_bool survive) ;;
      trace_loop code rest g' bits
  end.

Definition logical_trace (code : string) (grid : list Q) (g : RandomState)
  : result (list Q * RandomState) :=
  trace_loop code (enumerate grid) g (repeat 1 (List.length grid)).

(** [(AUIL_signal(single_code, single_run_p) > 0).astype(float)] *)
Definition AUIL_trace (code : string) (grid : list Q) : list Q :=
  map (fun v => of_bool (Qlt_bool 0 v)) (AUIL_signal_array code grid).

Definition single_run_p : list Q := linspace 0 1 50.
Definition single_code : string := "bit-flip".

Definition single_run : result (list Q * list Q) :=
  r <- logical_trace single_code single_run_p (seed 42) ;;
  Ok (fst r, AUIL_trace single_code single_run_p).

(** The generator state after [k] draws, and the [k]-th sample (from 0). *)
Fixpoint advance (k : nat) (g : RandomState) : RandomState :=
  match k with
  | O => g
  | S k' => advance k' (snd (rand g))
  end.

Definition draw (k : nat) (g : RandomState) : Q := fst (rand (advance k g)).

End SingleRun.

Arguments trace_loop {RandomState} rand code ips g logical_bits.
Arguments logical_trace {RandomState} rand code grid g.
Arguments single_run {RandomState} seed rand.
Arguments advance {RandomState} rand k g.
Arguments draw {RandomState} rand k g.

(** ** The survival model in binary64

    The same function on IEEE binary64 values, operation by operation.
    [f64_pow] stands for the [pow] of the C library that [**] calls: it
    multiplies by repeated squaring, rounding after every product.  At the
    bases 1.0 and 0.0 every product is exact, and there it returns what
    [pow] returns. *)




(** ** Reference definitions used in the statements *)

(** [two_term n p] is the body of the first branch of [logical_survival]
    with the system size as a variable. *)
Definition two_term (n : Z) (p : Q) : Q :=
  (1 - p) ^ n + inject_Z n * p * (1 - p) ^ (n - 1).

(** Truth and prediction at one grid point, read off the two models. *)
Definition truth_high (code : string) (p : Q) : bool :=
  match logical_survival code p with
  | Ok v => Qlt_bool (1 # 2) v
  | Raise _ => false
  end.

Definition truth_low (code : string) (p : Q) : bool :=
  match logical_survival code p with
  | Ok v => Qle_bool v (1 # 2)
  | Raise _ => false
  end.

Definition pred_high (code : string) (p : Q) : bool :=
  Qlt_bool (1 # 2) (AUIL_signal code p).

(** The fraction of the points of [grid] that satisfy [P]. *)
Definition fraction (P : Q -> bool) (grid : list Q) : Q :=
  inject_Z (Z.of_nat (List.length (filter P grid)))
  / inject_Z (Z.of_nat (List.length grid)).

(** The curve of a code over a grid, as a relation between points and values. *)
Definition curve_of (code : string) (grid vals : list Q) : Prop :=
  Forall2 (fun p v => logical_survival code p = Ok v) grid vals.

(** The outcomes of a run against given survival probabilities: one sample
    per value, drawn in order. *)
Fixpoint outcomes {RandomState : Type} (rand : RandomState -> Q * RandomState)
         (g : RandomState) (vals : list Q) : list Q :=
  match vals with
  | [] => []
  | s :: vals' =>
      of_bool (Qlt_bool (fst (rand g)) s) :: outcomes rand (snd (rand g)) vals'
  end.

(** A generator for examples: it cycles through 0, 1/4, 1/2, 3/4. *)
Definition cycle4 (g : nat) : Q * nat :=
  (inject_Z (Z.of_nat (g mod 4)) / 4, S g).

(** ** Dictionaries and the script's tables

    A Python [dict] with string keys, in insertion order.  [dict_get]
    returns [None] where Python raises [KeyError]; [dict_set] is the
    assignment [d[k] = v], which overwrites in place or appends. *)

Definition dict (V : Type) : Type := list (string * V).

Fixpoint dict_get {V : Type} (d : dict V) (k : string) : option V :=
  match d with
  | [] => None
  | (k', v) :: d' => if String.eqb k k' then Some v else dict_get d' k
  end.

Fixpoint dict_set {V : Type} (d : dict V) (k : string) (v : V) : dict V :=
  match d with
  | [] => [(k, v)]
  | (k', v') :: d' =>
      if String.eqb k k' then (k', v) :: d' else (k', v') :: dict_set d' k v
  end.

(** The loop [for code in codes] that fills [QEC_curves] and [AUIL_curves]. *)
Fixpoint aggregate_loop (grid : list Q) (cs : list string)
         (QEC_curves AUIL_curves : dict (list Q))
  : result (dict (list Q) * dict (list Q)) :=
  match cs with
  | [] => Ok (QEC_curves, AUIL_curves)
  | code :: cs' =>
      qec <- comprehension (logical_survival code) grid ;;
      let auil := map (AUIL_signal code) grid in
      aggregate_loop grid cs' (dict_set QEC_curves code qec)
                     (dict_set AUIL_curves code auil)
  end.

Definition aggregate (grid : list Q)
  : result (dict (list Q) * dict (list Q)) :=
  aggregate_loop grid codes [] [].

(** A list comprehension over dictionary lookups, [[d[c] for c in cs]]:
    [None] when some key is missing. *)
Fixpoint lookup_all {V : Type} (d : dict V) (cs : list string)
  : option (list V) :=
  match cs with
  | [] => Some []
  | c :: cs' =>
      match dict_get d c, lookup_all d cs' with
      | Some v, Some vs => Some (v :: vs)
      | _, _ => None
      end
  end.

(** The rows handed to [imshow]. *)
Definition heatmap_data (QEC_curves : dict (list Q)) : option (list (list Q)) :=
  lookup_all QEC_curves codes.

(** The heights of the two bar series. *)
Definition bars_QEC : option (list Q) := lookup_all threshold_QEC codes.
Definition bars_AUIL : option (list Q) := lookup_all threshold_AUIL codes.

(** * Properties *)

(** ** Comparisons *)

Lemma Qlt_bool_iff (x y : Q) : Qlt_bool x y = true <-> x < y.
Proof.
  unfold Qlt_bool. rewrite negb_true_iff.
  split; intro H.
  - apply Qnot_le_lt. intro Hle. apply Qle_bool_iff in Hle. congruence.
  - destruct (Qle_bool y x) eqn:E; [|reflexivity].
    apply Qle_bool_iff in E. exfalso. exact (Qlt_not_le _ _ H E).
Qed.

Lemma Qlt_bool_false_iff (x y : Q) : Qlt_bool x y = false <-> y <= x.
Proof.
  unfold Qlt_bool. rewrite negb_false_iff. apply Qle_bool_iff.
Qed.

Lemma np_maximum_spec (a b : Q) : np_maximum a b == Qmax a b.
Proof.
  unfold np_maximum. destruct (Qle_bool a b) eqn:E.
  - apply Qle_bool_iff in E. symmetry. apply Q.max_r. exact E.
  - assert (b <= a) as H.
    { apply Qlt_le_weak, Qnot_le_lt. intro H. apply Qle_bool_iff in H. congruence. }
    symmetry. apply Q.max_l. exact H.
Qed.

(** ** Powers with a natural exponent *)

Lemma Qpower_succ (q : Q) (m : nat) :
  q ^ Z.of_nat (S m) == q * q ^ Z.of_nat m.
Proof.
  rewrite Nat2Z.inj_succ. unfold Z.succ.
  rewrite Qpower_plus' by lia.
  rewrite Qpower_1_r. apply Qmult_comm.
Qed.

Lemma Qpower_unit (q : Q) (m : nat) :
  0 <= q <= 1 -> 0 <= q ^ Z.of_nat m <= 1.
Proof.
  intros [H0 H1]. induction m as [|m [IH0 IH1]].
  - change (q ^ Z.of_nat 0) with 1. split; discriminate.
  - rewrite Qpower_succ. generalize dependent (q ^ Z.of_nat m). intros x IH0 IH1.
    split; nra.
Qed.

Lemma Qpower_mono (a b : Q) (m : nat) :
  0 <= b -> b <= a -> b ^ Z.of_nat m <= a ^ Z.of_nat m.
Proof.
  intros H0 Hab. induction m as [|m IH].
  - apply Qle_refl.
  - rewrite !Qpower_succ.
    assert (0 <= b ^ Z.of_nat m) as Hb by (apply Qpower_0_le; exact H0).
    generalize dependent (b ^ Z.of_nat m). generalize (a ^ Z.of_nat m).
    intros x y IH Hy. nra.
Qed.

(** ** The two-term polynomial *)

Lemma two_term_nat (m : nat) (p : Q) :
  two_term (Z.of_nat (S m)) p
  == (1 - p) ^ Z.of_nat (S m)
     + inject_Z (Z.of_nat (S m)) * p * (1 - p) ^ Z.of_nat m.
Proof.
  unfold two_term.
  replace (Z.of_nat (S m) - 1)%Z with (Z.of_nat m) by lia.
  reflexivity.
Qed.

Lemma two_term_step (m : nat) (p : Q) :
  two_term (Z.of_nat (S (S m))) p
  == (1 - p) * two_term (Z.of_nat (S m)) p + p * (1 - p) ^ Z.of_nat (S m).
Proof.
  rewrite !two_term_nat.
  rewrite (Qpower_succ (1 - p) (S m)).
  rewrite (Nat2Z.inj_succ (S m)). unfold Z.succ at 1. rewrite inject_Z_plus.
  rewrite (Qpower_succ (1 - p) m).
  generalize (inject_Z (Z.of_nat (S m))). generalize ((1 - p) ^ Z.of_nat m).
  intros x k. change (inject_Z 1) with 1. ring.
Qed.

Lemma two_term_one (p : Q) : two_term (Z.of_nat 1) p == 1.
Proof.
  unfold two_term. change (Z.of_nat 1 - 1)%Z with 0%Z. change (Z.of_nat 1) with 1%Z.
  rewrite Qpower_1_r. change ((1 - p) ^ 0) with 1. change (inject_Z 1) with 1. ring.
Qed.

Lemma two_term_ge_pow (m : nat) (p : Q) :
  0 <= p <= 1 ->
  (1 - p) ^ Z.of_nat (S m) <= two_term (Z.of_nat (S m)) p.
Proof.
  intros [H0 H1]. rewrite two_term_nat.
  assert (0 <= (1 - p) ^ Z.of_nat m) as Hx by (apply Qpower_0_le; lra).
  assert (0 <= inject_Z (Z.of_nat (S m))) as Hk.
  { change 0 with (inject_Z 0). rewrite <- Zle_Qle. lia. }
  generalize dependent ((1 - p) ^ Z.of_nat m).
  generalize dependent (inject_Z (Z.of_nat (S m))).
  generalize ((1 - p) ^ Z.of_nat (S m)).
  intros y k Hk x Hx.
  assert (0 <= k * p * x).
  { apply Qmult_le_0_compat; [apply Qmult_le_0_compat|]; assumption. }
  lra.
Qed.

Lemma two_term_unit_nat (m : nat) (p : Q) :
  0 <= p <= 1 -> 0 <= two_term (Z.of_nat (S m)) p <= 1.
Proof.
  intros Hp. induction m as [|m [IH0 IH1]].
  - rewrite two_term_one. split; discriminate.
  - rewrite two_term_step.
    destruct (Qpower_unit (1 - p) (S m)) as [Hx0 Hx1]; [lra|].
    destruct Hp as [H0 H1].
    generalize dependent (two_term (Z.of_nat (S m)) p).
    generalize dependent ((1 - p) ^ Z.of_nat (S m)).
    intros x Hx0 Hx1 t Ht0 Ht1. split; nra.
Qed.

Lemma two_term_mono_nat (m : nat) (p1 p2 : Q) :
  0 <= p1 -> p1 <= p2 -> p2 <= 1 ->
  two_term (Z.of_nat (S m)) p2 <= two_term (Z.of_nat (S m)) p1.
Proof.
  intros H0 H12 H1. induction m as [|m IH].
  - rewrite !two_term_one. apply Qle_refl.
  - rewrite !two_term_step.
    assert ((1 - p2) ^ Z.of_nat (S m) <= (1 - p1) ^ Z.of_nat (S m)) as Hpow
      by (apply Qpower_mono; lra).
    assert (0 <= (1 - p2) ^ Z.of_nat (S m)) as Hpos by (apply Qpower_0_le; lra).
    assert ((1 - p2) ^ Z.of_nat (S m) <= two_term (Z.of_nat (S m)) p2) as Hge
      by (apply two_term_ge_pow; split; lra).
    generalize dependent (two_term (Z.of_nat (S m)) p1).
    generalize dependent (two_term (Z.of_nat (S m)) p2).
    generalize dependent ((1 - p1) ^ Z.of_nat (S m)).
    generalize dependent ((1 - p2) ^ Z.of_nat (S m)).
    intros b Hb a Hab g2 Hg2 g1 Hg.
    assert (0 <= (1 - p1) * (g1 - g2)) by (apply Qmult_le_0_compat; lra).
    assert (0 <= p1 * (a - b)) by (apply Qmult_le_0_compat; lra).
    assert (0 <= (p2 - p1) * (g2 - b)) by (apply Qmult_le_0_compat; lra).
    lra.
Qed.

(** ** From natural to integer system sizes *)

Lemma Z_as_succ (n : Z) : (1 <= n)%Z -> exists m : nat, n = Z.of_nat (S m).
Proof.
  intro H. exists (Z.to_nat (n - 1)).
  rewrite Nat2Z.inj_succ, Z2Nat.id; lia.
Qed.

Lemma Qpower_unit_Z (q : Q) (n : Z) :
  (0 <= n)%Z -> 0 <= q <= 1 -> 0 <= q ^ n <= 1.
Proof.
  intros Hn Hq. rewrite <- (Z2Nat.id n Hn). apply Qpower_unit. exact Hq.
Qed.

Lemma Qpower_mono_Z (a b : Q) (n : Z) :
  (0 <= n)%Z -> 0 <= b -> b <= a -> b ^ n <= a ^ n.
Proof.
  intros Hn H0 Hab. rewrite <- (Z2Nat.id n Hn). apply Qpower_mono; assumption.
Qed.

Lemma two_term_unit (n : Z) (p : Q) :
  (1 <= n)%Z -> 0 <= p <= 1 -> 0 <= two_term n p <= 1.
Proof.
  intros Hn Hp. destruct (Z_as_succ n Hn) as [m ->].
  apply two_term_unit_nat. exact Hp.
Qed.

Lemma two_term_mono (n : Z) (p1 p2 : Q) :
  (1 <= n)%Z -> 0 <= p1 -> p1 <= p2 -> p2 <= 1 ->
  two_term n p2 <= two_term n p1.
Proof.
  intros Hn H0 H12 H1. destruct (Z_as_succ n Hn) as [m ->].
  apply two_term_mono_nat; assumption.
Qed.

Lemma n_qubits_pos : (1 <= n_qubits)%Z.
Proof. discriminate. Qed.

(** ** Case analysis on the code identifier *)

Lemma supported_cases (code : string) :
  In code codes ->
  code = "bit-flip"%string \/ code = "phase-flip"%string
  \/ code = "depolarizing"%string.
Proof.
  unfold codes. simpl. intros [H | [H | [H | []]]]; auto.
Qed.

Lemma survival_two_term (code : string) (p : Q) :
  code = "bit-flip"%string \/ code = "phase-flip"%string ->
  logical_survival code p = Ok (two_term n_qubits p).
Proof.
  intros [-> | ->]; reflexivity.
Qed.

Lemma survival_depolarizing (p : Q) :
  logical_survival "depolarizing" p = Ok ((1 - p) ^ n_qubits).
Proof. reflexivity. Qed.

Lemma survival_unknown (code : string) (p : Q) :
  ~ In code codes ->
  logical_survival code p = Raise (ValueError "Unknown code").
Proof.
  intro H. unfold logical_survival, str_in.
  destruct (String.eqb_spec code "bit-flip") as [E | _].
  { exfalso. apply H. rewrite E. simpl. auto. }
  destruct (String.eqb_spec code "phase-flip") as [E | _].
  { exfalso. apply H. rewrite E. simpl. auto. }
  destruct (String.eqb_spec code "depolarizing") as [E | _].
  { exfalso. apply H. rewrite E. simpl. auto. }
  reflexivity.
Qed.

(** For a supported code the survival model returns a value, and that value
    is a probability whenever [p] is one. *)
Lemma survival_supported (code : string) (p : Q) :
  In code codes -> exists v, logical_survival code p = Ok v.
Proof.
  intro H. destruct (supported_cases code H) as [E | [E | E]].
  - eexists. apply survival_two_term. auto.
  - eexists. apply survival_two_term. auto.
  - subst. eexists. apply survival_depolarizing.
Qed.




(** C6.  For every noise probability [p], the survival model raises (a
    [ValueError], the script's unsupported-code error) exactly when the code
    identifier is not one of "bit-flip", "phase-flip", "depolarizing", and
    returns a value exactly when it is one of them. *)
Theorem logical_survival_raises_iff (code : string) (p : Q) :
  ((exists msg, logical_survival code p = Raise (ValueError msg))
   <-> ~ In code codes)
  /\ ((exists v, logical_survival code p = Ok v) <-> In code codes).
Proof.
  destruct (in_dec string_dec code codes) as [Hin | Hout].
  - destruct (survival_supported code p Hin) as [v Hv]. split; split.
    + intros [msg Hm]. congruence.
    + intro Hn. contradiction.
    + intros _. exact Hin.
    + intros _. exists v. exact Hv.
  - pose proof (survival_unknown code p Hout) as Hr. split; split.
    + intros _. exact Hout.
    + intros _. eexists. exact Hr.
    + intros [v Hv]. congruence.
    + intro Hin. contradiction.
Qed.

(** C7.  For every supported code the survival model returns exactly 1 at
    [p = 0] and exactly 0 at [p = 1]. *)
Theorem logical_survival_boundary (code : string) :
  In code codes ->
  logical_survival code 0 = Ok 1 /\ logical_survival code 1 = Ok 0.
Proof.
  intro H. destruct (supported_cases code H) as [E | [E | E]]; subst;
    split; vm_compute; reflexivity.
Qed.

Lemma logical_survival_boundary_witness :
  logical_survival "phase-flip" 0 = Ok 1
  /\ logical_survival "phase-flip" 1 = Ok 0.
Proof.
  assert (In "phase-flip"%string codes) as Hc by (simpl; auto).
  exact (logical_survival_boundary "phase-flip" Hc).
Defined.

(** C9.  The signal model does not depend on its code argument: two runs
    that differ only in the code return the same value. *)
Theorem AUIL_signal_code_independent (code_A code_B : string) (p : Q) :
  AUIL_signal code_A p = AUIL_signal code_B p.
Proof. reflexivity. Qed.

(** C10.  For every supported code the survival model is non-increasing in
    the noise probability over [[0,1]], in exact arithmetic: for
    [0 <= p1 <= p2 <= 1] the value at [p1] is at least the value at [p2]. *)
Theorem logical_survival_monotone (code : string) (p1 p2 : Q) :
  In code codes -> 0 <= p1 -> p1 <= p2 -> p2 <= 1 ->
  exists v1 v2,
    logical_survival code p1 = Ok v1
    /\ logical_survival code p2 = Ok v2
    /\ v2 <= v1.
Proof.
  intros H H0 H12 H1.
  assert (forall p, logical_survival "depolarizing" p = Ok ((1 - p) ^ n_qubits))
    as Hd by (intro; reflexivity).
  destruct (supported_cases code H) as [E | [E | E]].
  - exists (two_term n_qubits p1), (two_term n_qubits p2).
    rewrite !survival_two_term by auto. repeat split.
    apply two_term_mono; [exact n_qubits_pos | assumption ..].
  - exists (two_term n_qubits p1), (two_term n_qubits p2).
    rewrite !survival_two_term by auto. repeat split.
    apply two_term_mono; [exact n_qubits_pos | assumption ..].
  - subst code. exists ((1 - p1) ^ n_qubits), ((1 - p2) ^ n_qubits).
    rewrite !Hd. repeat split.
    apply Qpower_mono_Z; [discriminate | lra | lra].
Qed.

Lemma logical_survival_monotone_witness :
  exists v1 v2,
    logical_survival "bit-flip" (1 # 4) = Ok v1
    /\ logical_survival "bit-flip" (1 # 2) = Ok v2
    /\ v2 <= v1.
Proof.
  assert (In "bit-flip"%string codes) as Hc by (simpl; auto).
  assert (0 <= 1 # 4) as H0 by discriminate.
  assert (1 # 4 <= 1 # 2) as H12 by discriminate.
  assert (1 # 2 <= 1) as H1 by discriminate.
  exact (logical_survival_monotone "bit-flip" (1 # 4) (1 # 2) Hc H0 H12 H1).
Defined.

(** ** The signal model *)

Lemma inv_threshold (k p : Q) :
  0 < k -> (p < 1 / k <-> k * p < 1).
Proof.
  intro Hk.
  assert (k * (1 / k) == 1) as Hr by (field; lra).
  generalize dependent (1 / k). intros r Hr.
  split; intro H; nra.
Qed.

Lemma np_maximum_0_cases (x : Q) :
  (0 < x /\ np_maximum 0 x = x) \/ (x <= 0 /\ np_maximum 0 x == 0).
Proof.
  unfold np_maximum. destruct (Qle_bool 0 x) eqn:E.
  - apply Qle_bool_iff in E. destruct (Qle_lt_or_eq _ _ E) as [Hlt | Heq].
    + left. split; [exact Hlt | reflexivity].
    + right. split; [rewrite <- Heq; apply Qle_refl | symmetry; exact Heq].
  - right. split; [|reflexivity].
    apply Qlt_le_weak, Qnot_le_lt. intro H. apply Qle_bool_iff in H. congruence.
Qed.

(** C2.  For every code and noise probability [p], the signal model returns
    [max(0, 1 - n*p)]: it equals [1 - n*p] and is strictly positive exactly
    when [p < 1/n], and it is 0 for every [p >= 1/n]. *)
Theorem AUIL_signal_zero_crossing (code : string) (p : Q) :
  AUIL_signal code p == Qmax 0 (1 - inject_Z n_qubits * p)
  /\ ((AUIL_signal code p == 1 - inject_Z n_qubits * p
       /\ 0 < AUIL_signal code p)
      <-> p < 1 / inject_Z n_qubits)
  /\ (1 / inject_Z n_qubits <= p -> AUIL_signal code p == 0).
Proof.
  unfold AUIL_signal.
  assert (0 < inject_Z n_qubits) as Hk by reflexivity.
  pose proof (inv_threshold (inject_Z n_qubits) p Hk) as Hthr.
  generalize dependent (1 / inject_Z n_qubits).
  generalize dependent (inject_Z n_qubits). intros k Hk r Hthr.
  split; [apply np_maximum_spec|].
  destruct (np_maximum_0_cases (1 - k * p)) as [[Hpos Hmax] | [Hneg Hmax]].
  - rewrite Hmax. split.
    + split; [intros _; apply Hthr; lra | intros _; split; [reflexivity | exact Hpos]].
    + intro Hge. exfalso. apply (Qle_not_lt _ _ Hge). apply Hthr. lra.
  - rewrite Hmax. split.
    + split; [intros [_ Habs]; exfalso; exact (Qlt_irrefl _ Habs) |].
      intro Hlt. apply Hthr in Hlt. lra.
    + intros _. reflexivity.
Qed.

(** ** Curves *)

Lemma comprehension_Forall2 {A B : Type} (f : A -> result B) (xs : list A) (ys : list B) :
  comprehension f xs = Ok ys <-> Forall2 (fun x y => f x = Ok y) xs ys.
Proof.
  revert ys. induction xs as [|x xs IH]; intro ys; simpl.
  - split; intro H.
    + injection H as <-. constructor.
    + inversion H. reflexivity.
  - split; intro H.
    + destruct (f x) as [y|e] eqn:Ef; simpl in H; [|discriminate].
      destruct (comprehension f xs) as [zs|e] eqn:Ec; simpl in H; [|discriminate].
      injection H as <-. constructor; [exact Ef | apply IH; reflexivity].
    + inversion H as [|x' y xs' zs Hf Hrest]; subst.
      rewrite Hf. simpl. apply IH in Hrest. rewrite Hrest. reflexivity.
Qed.

Lemma QEC_curve_supported (grid : list Q) (code : string) :
  In code codes ->
  exists qec, QEC_curve grid code = Ok qec /\ curve_of code grid qec.
Proof.
  intro Hc. unfold QEC_curve, curve_of.
  induction grid as [|p grid [qec [Hq HF]]].
  - exists []. split; [reflexivity | constructor].
  - destruct (survival_supported code p Hc) as [v Hv].
    exists (v :: qec). split.
    + simpl. rewrite Hv. simpl. rewrite Hq. reflexivity.
    + constructor; assumption.
Qed.

Lemma curve_of_length (code : string) (grid vals : list Q) :
  curve_of code grid vals -> List.length vals = List.length grid.
Proof.
  intro H. symmetry. exact (Forall2_length H).
Qed.

Lemma curve_of_nth (code : string) (grid vals : list Q) (i : nat) (p : Q) :
  curve_of code grid vals -> nth_error grid i = Some p ->
  exists v, logical_survival code p = Ok v /\ nth_error vals i = Some v.
Proof.
  intro H. revert i. induction H as [|q v grid vals Hv _ IH]; intros i Hi.
  - destruct i; discriminate.
  - destruct i as [|i]; simpl in *.
    + injection Hi as <-. exists v. split; [exact Hv | reflexivity].
    + apply IH. exact Hi.
Qed.

(** Over a grid of probabilities, every value of a QEC curve is a
    probability. *)
Lemma survival_unit (code : string) (p : Q) :
  In code codes -> 0 <= p <= 1 ->
  exists v, logical_survival code p = Ok v /\ 0 <= v <= 1.
Proof.
  intros Hc Hp. destruct (supported_cases code Hc) as [E | [E | E]].
  - exists (two_term n_qubits p). split; [apply survival_two_term; auto|].
    apply two_term_unit; [exact n_qubits_pos | exact Hp].
  - exists (two_term n_qubits p). split; [apply survival_two_term; auto|].
    apply two_term_unit; [exact n_qubits_pos | exact Hp].
  - subst code. exists ((1 - p) ^ n_qubits). split; [apply survival_depolarizing|].
    apply Qpower_unit_Z; [discriminate | lra].
Qed.

Lemma QEC_curve_unit (grid qec : list Q) (code : string) :
  In code codes ->
  Forall (fun p => 0 <= p <= 1) grid ->
  curve_of code grid qec ->
  Forall (fun v => 0 <= v <= 1) qec.
Proof.
  intros Hc Hgrid HF. induction HF as [|p v grid qec Hv _ IH].
  - constructor.
  - inversion Hgrid as [|p' grid' Hp Hrest]; subst.
    constructor; [|apply IH; exact Hrest].
    destruct (survival_unit code p Hc Hp) as [w [Hw Hunit]].
    rewrite Hv in Hw. injection Hw as <-. exact Hunit.
Qed.

(** The script's grid: 41 points, all of them probabilities, from 0 to 1. *)
Example p_vals_grid :
  List.length p_vals = 41%nat
  /\ forallb (fun p => Qle_bool 0 p && Qle_bool p 1) p_vals = true
  /\ nth_error p_vals 0 = Some (0 + 0 * ((1 - 0) / 40))
  /\ nth_error p_vals 40 = Some (0 + 40 * ((1 - 0) / 40)).
Proof. repeat split; vm_compute; reflexivity. Qed.

Lemma elementwise_length {A B C : Type} (f : A -> B -> C) (xs : list A) (ys : list B) :
  List.length xs = List.length ys ->
  List.length (elementwise f xs ys) = List.length xs.
Proof.
  revert ys. induction xs as [|x xs IH]; intros [|y ys] H; simpl in *;
    try reflexivity; try discriminate.
  f_equal. apply IH. congruence.
Qed.

Lemma elementwise_nth {A B C : Type} (f : A -> B -> C) (xs : list A) (ys : list B)
      (i : nat) (x : A) (y : B) :
  nth_error xs i = Some x -> nth_error ys i = Some y ->
  nth_error (elementwise f xs ys) i = Some (f x y).
Proof.
  revert xs ys. induction i as [|i IH]; intros [|x' xs] [|y' ys] Hx Hy;
    simpl in *; try discriminate.
  - congruence.
  - apply IH; assumption.
Qed.

(** ** Residual *)

(** C8.  For every supported code and every grid, the residual is the QEC
    curve minus the AUIL curve, elementwise: it has the length of the grid
    and its entry at grid point [p] is
    [logical_survival(code, p) - AUIL_signal(code, p)], with no clamping. *)
Theorem diff_pointwise (grid : list Q) (code : string) :
  In code codes ->
  exists qec d,
    QEC_curve grid code = Ok qec
    /\ diff grid code = Ok d
    /\ d = elementwise Qminus qec (AUIL_curve grid code)
    /\ List.length d = List.length grid
    /\ forall i p, nth_error grid i = Some p ->
         exists s, logical_survival code p = Ok s
           /\ nth_error d i = Some (s - AUIL_signal code p).
Proof.
  intro Hc. destruct (QEC_curve_supported grid code Hc) as [qec [Hq HF]].
  exists qec, (elementwise Qminus qec (AUIL_curve grid code)).
  pose proof (curve_of_length _ _ _ HF) as Hlen.
  split; [exact Hq|]. split; [unfold diff; rewrite Hq; reflexivity|].
  split; [reflexivity|]. split.
  - rewrite elementwise_length; [exact Hlen|].
    unfold AUIL_curve. rewrite length_map. exact Hlen.
  - intros i p Hi. destruct (curve_of_nth _ _ _ i p HF Hi) as [s [Hs Hn]].
    exists s. split; [exact Hs|].
    apply elementwise_nth; [exact Hn|].
    unfold AUIL_curve. rewrite nth_error_map, Hi. reflexivity.
Qed.

Lemma diff_pointwise_witness :
  exists qec d,
    QEC_curve [0; 1] "depolarizing" = Ok qec
    /\ diff [0; 1] "depolarizing" = Ok d
    /\ d = elementwise Qminus qec (AUIL_curve [0; 1] "depolarizing")
    /\ List.length d = List.length [0; 1]
    /\ forall i p, nth_error [0; 1] i = Some p ->
         exists s, logical_survival "depolarizing" p = Ok s
           /\ nth_error d i = Some (s - AUIL_signal "depolarizing" p).
Proof.
  assert (In "depolarizing"%string codes) as Hc by (simpl; auto).
  exact (diff_pointwise [0; 1] "depolarizing" Hc).
Defined.

(** Nothing clamps the residual: off the unit interval it does go negative. *)
Example diff_negative_entry :
  exists d, diff [2] "bit-flip" = Ok [d] /\ d < 0.
Proof.
  eexists. split; [vm_compute; reflexivity | reflexivity].
Qed.

(** ** Classification rates *)

Lemma count_true_map {A : Type} (P : A -> bool) (l : list A) :
  count_true (map P l) = List.length (filter P l).
Proof.
  unfold count_true. induction l as [|x l IH]; simpl; [reflexivity|].
  destruct (P x); simpl; congruence.
Qed.

Lemma np_mean_map (P : Q -> bool) (grid : list Q) :
  grid <> [] -> np_mean (map P grid) = Finite (fraction P grid).
Proof.
  intro Hne. destruct grid as [|p grid]; [contradiction|].
  unfold np_mean, fraction.
  change (map P (p :: grid)) with (P p :: map P grid) at 1.
  cbv iota. rewrite count_true_map, length_map. reflexivity.
Qed.

Lemma fraction_unit (P : Q -> bool) (grid : list Q) :
  grid <> [] -> 0 <= fraction P grid <= 1.
Proof.
  intro Hne. unfold fraction.
  assert (0 < inject_Z (Z.of_nat (List.length grid))) as Hlen.
  { change 0 with (inject_Z 0). rewrite <- Zlt_Qlt.
    destruct grid; [contradiction | simpl; lia]. }
  assert (0 <= inject_Z (Z.of_nat (List.length (filter P grid)))) as Hc0.
  { change 0 with (inject_Z 0). rewrite <- Zle_Qle. lia. }
  assert (inject_Z (Z.of_nat (List.length (filter P grid)))
          <= inject_Z (Z.of_nat (List.length grid))) as Hc1.
  { rewrite <- Zle_Qle. apply Nat2Z.inj_le, filter_length_le. }
  split.
  - apply Qle_shift_div_l; [exact Hlen|]. rewrite Qmult_0_l. exact Hc0.
  - apply Qle_shift_div_r; [exact Hlen|]. rewrite Qmult_1_l. exact Hc1.
Qed.

Lemma truth_pred_pointwise (code : string) (grid qec : list Q) :
  curve_of code grid qec ->
  elementwise (fun t d => Z.eqb t 1 && Z.eqb d 1)
              (above_half qec) (above_half (AUIL_curve grid code))
  = map (fun p => truth_high code p && pred_high code p) grid
  /\ elementwise (fun t d => Z.eqb t 0 && Z.eqb d 1)
                 (above_half qec) (above_half (AUIL_curve grid code))
     = map (fun p => truth_low code p && pred_high code p) grid.
Proof.
  intro H. induction H as [|p v grid qec Hv _ [IHt IHf]]; [split; reflexivity|].
  simpl. rewrite IHt, IHf. unfold truth_high, truth_low, pred_high.
  rewrite Hv. unfold Qlt_bool.
  split; f_equal;
    destruct (Qle_bool v (1 # 2));
    destruct (Qle_bool (AUIL_signal code p) (1 # 2)); reflexivity.
Qed.

(** C3.  For every supported code and every non-empty grid, both curves are
    thresholded at the fixed cutoff 1/2; the true-positive rate is the
    fraction of all grid points where truth and prediction both exceed 1/2,
    the false-positive rate is the fraction of all grid points where the
    truth is at most 1/2 and the prediction exceeds 1/2, and both rates lie
    in [[0,1]]. *)
Theorem rates_fraction (grid : list Q) (code : string) :
  In code codes -> grid <> [] ->
  exists tp fp,
    rates grid code = Ok (Finite tp, Finite fp)
    /\ tp = fraction (fun p => truth_high code p && pred_high code p) grid
    /\ fp = fraction (fun p => truth_low code p && pred_high code p) grid
    /\ 0 <= tp <= 1
    /\ 0 <= fp <= 1.
Proof.
  intros Hc Hne. destruct (QEC_curve_supported grid code Hc) as [qec [Hq HF]].
  destruct (truth_pred_pointwise code grid qec HF) as [Ht Hf].
  do 2 eexists. split; [|split; [reflexivity | split; [reflexivity|]]].
  - unfold rates. rewrite Hq. simpl bind. cbv zeta.
    rewrite Ht, Hf, !np_mean_map by exact Hne. reflexivity.
  - split; apply fraction_unit; exact Hne.
Qed.

Lemma rates_fraction_witness :
  exists tp fp,
    rates [0; 1] "bit-flip" = Ok (Finite tp, Finite fp)
    /\ tp = fraction (fun p => truth_high "bit-flip" p && pred_high "bit-flip" p) [0; 1]
    /\ fp = fraction (fun p => truth_low "bit-flip" p && pred_high "bit-flip" p) [0; 1]
    /\ 0 <= tp <= 1
    /\ 0 <= fp <= 1.
Proof.
  assert (In "bit-flip"%string codes) as Hc by (simpl; auto).
  assert ([0; 1] <> @nil Q) as Hne by discriminate.
  exact (rates_fraction [0; 1] "bit-flip" Hc Hne).
Defined.

(** The grid [[0; 1]]: one point of two is a true positive, none is a false
    positive. *)
Example rates_two_points :
  rates [0; 1] "bit-flip" = Ok (Finite (1 # 2), Finite (0 # 2)).
Proof. vm_compute. reflexivity. Qed.

(** What the model predicates mean. *)
Lemma truth_high_iff (code : string) (p v : Q) :
  logical_survival code p = Ok v ->
  (truth_high code p = true <-> 1 # 2 < v)
  /\ (truth_low code p = true <-> v <= 1 # 2).
Proof.
  intro H. unfold truth_high, truth_low. rewrite H.
  split; [apply Qlt_bool_iff | apply Qle_bool_iff].
Qed.

Lemma pred_high_iff (code : string) (p : Q) :
  pred_high code p = true <-> 1 # 2 < AUIL_signal code p.
Proof. apply Qlt_bool_iff. Qed.

(** ** The empty grid *)

(** C5 as stated fails: on the empty grid the classification step raises
    nothing and returns the pair (NaN, NaN). *)
Lemma rates_empty_grid_no_error :
  rates [] "bit-flip" = Ok (NaN, NaN)
  /\ ~ (exists e, rates [] "bit-flip" = Raise e).
Proof.
  split; [reflexivity|]. intros [e He]. discriminate He.
Qed.

(** C5, amended.  On the empty grid the classification step does not fail:
    for every code both rates are NaN, the value of [np.mean] on an empty
    array, and so [true_pos] and [false_pos] are lists of NaN. *)
Theorem rates_empty_grid (code : string) :
  rates [] code = Ok (NaN, NaN)
  /\ true_false_pos [] = Ok ([NaN; NaN; NaN], [NaN; NaN; NaN]).
Proof.
  split; reflexivity.
Qed.

(** ** The single run *)

Lemma setitem_app (done : list Q) (x v : Q) (rest : list Q) :
  setitem (done ++ x :: rest) (List.length done) v = Ok (done ++ v :: rest).
Proof.
  induction done as [|y done IH]; simpl; [reflexivity|].
  rewrite IH. reflexivity.
Qed.

Section SingleRunFacts.

Variable RandomState : Type.
Variable rand : RandomState -> Q * RandomState.

Lemma trace_loop_outcomes (code : string) (grid vals : list Q) :
  curve_of code grid vals ->
  forall (g : RandomState) (done : list Q),
    trace_loop rand code
               (combine (seq (List.length done) (List.length grid)) grid) g
               (done ++ repeat 1 (List.length grid))
    = Ok (done ++ outcomes rand g vals, advance rand (List.length grid) g).
Proof.
  intro H. induction H as [|p s grid vals Hs _ IH]; intros g done.
  - reflexivity.
  - simpl. destruct (rand g) as [u g'] eqn:Er. rewrite Hs. simpl.
    rewrite setitem_app. simpl.
    specialize (IH g' (done ++ [of_bool (Qlt_bool u s)])).
    rewrite length_app, Nat.add_1_r, <- !app_assoc in IH.
    exact IH.
Qed.

Lemma outcomes_length (g : RandomState) (vals : list Q) :
  List.length (outcomes rand g vals) = List.length vals.
Proof.
  revert g. induction vals as [|s vals IH]; intro g; simpl; [reflexivity|].
  rewrite IH. reflexivity.
Qed.

Lemma outcomes_nth (vals : list Q) (i : nat) (s : Q) :
  nth_error vals i = Some s ->
  forall g : RandomState,
    nth_error (outcomes rand g vals) i
    = Some (of_bool (Qlt_bool (draw rand i g) s)).
Proof.
  revert i. induction vals as [|s' vals IH]; intros [|i] Hi g;
    simpl in *; try discriminate.
  - injection Hi as ->. reflexivity.
  - rewrite (IH i Hi). reflexivity.
Qed.

Lemma of_bool_one (b : bool) : of_bool b = 1 <-> b = true.
Proof.
  destruct b; simpl; split; intro H; try reflexivity; discriminate.
Qed.

(** C4.  For a supported code and a generator whose samples lie in [[0,1)],
    the run over a trial grid draws exactly one sample per grid point, in
    grid order, and the outcome at point [p] is true (stored as 1) iff the
    sample drawn for it is below [logical_survival(code, p)].  The AUIL
    trace is a function of the code and the grid alone, with entry true iff
    [AUIL_signal(code, p) > 0]. *)
Theorem logical_trace_draws (code : string) (grid : list Q) (g : RandomState) :
  In code codes ->
  (forall g', 0 <= fst (rand g') < 1) ->
  exists bits,
    logical_trace rand code grid g
    = Ok (bits, advance rand (List.length grid) g)
    /\ List.length bits = List.length grid
    /\ List.length (AUIL_trace code grid) = List.length grid
    /\ forall i p, nth_error grid i = Some p ->
         exists s,
           logical_survival code p = Ok s
           /\ 0 <= draw rand i g < 1
           /\ nth_error bits i = Some (of_bool (Qlt_bool (draw rand i g) s))
           /\ (nth_error bits i = Some 1 <-> draw rand i g < s)
           /\ nth_error (AUIL_trace code grid) i
              = Some (of_bool (Qlt_bool 0 (AUIL_signal code p)))
           /\ (nth_error (AUIL_trace code grid) i = Some 1
               <-> 0 < AUIL_signal code p).
Proof.
  intros Hc Hrange.
  destruct (QEC_curve_supported grid code Hc) as [qec [_ HF]].
  exists (outcomes rand g qec). split; [|split; [|split]].
  - unfold logical_trace, enumerate.
    exact (trace_loop_outcomes code grid qec HF g []).
  - rewrite outcomes_length. exact (curve_of_length _ _ _ HF).
  - unfold AUIL_trace, AUIL_signal_array. rewrite !length_map. reflexivity.
  - intros i p Hi. destruct (curve_of_nth _ _ _ i p HF Hi) as [s [Hs Hn]].
    exists s. split; [exact Hs|]. split; [apply Hrange|].
    assert (nth_error (AUIL_trace code grid) i
            = Some (of_bool (Qlt_bool 0 (AUIL_signal code p)))) as Ha.
    { unfold AUIL_trace, AUIL_signal_array.
      rewrite !nth_error_map, Hi. reflexivity. }
    rewrite (outcomes_nth qec i s Hn g), Ha.
    split; [reflexivity|]. split; [|split; [reflexivity|]].
    + rewrite <- Qlt_bool_iff, <- of_bool_one.
      split; [intro E; injection E; auto | intro E; rewrite E; reflexivity].
    + rewrite <- Qlt_bool_iff, <- of_bool_one.
      split; [intro E; injection E; auto | intro E; rewrite E; reflexivity].
Qed.

End SingleRunFacts.

Lemma cycle4_unit (g : nat) : 0 <= fst (cycle4 g) < 1.
Proof.
  change (fst (cycle4 g)) with (inject_Z (Z.of_nat (g mod 4)) / 4).
  pose proof (Nat.mod_upper_bound g 4 ltac:(discriminate)) as Hm.
  assert (0 <= inject_Z (Z.of_nat (g mod 4))) as H0.
  { change 0 with (inject_Z 0). rewrite <- Zle_Qle. lia. }
  assert (inject_Z (Z.of_nat (g mod 4)) < 4) as H4.
  { change 4 with (inject_Z 4). rewrite <- Zlt_Qlt. lia. }
  generalize dependent (inject_Z (Z.of_nat (g mod 4))). intros x H0 H4.
  split.
  - apply Qle_shift_div_l; [reflexivity | lra].
  - apply Qlt_shift_div_r; [reflexivity | lra].
Qed.

Lemma logical_trace_draws_witness :
  exists bits,
    logical_trace cycle4 "bit-flip" [0; 1] 1%nat
    = Ok (bits, advance cycle4 (List.length [0; 1]) 1%nat)
    /\ List.length bits = List.length [0; 1]
    /\ List.length (AUIL_trace "bit-flip" [0; 1]) = List.length [0; 1]
    /\ forall i p, nth_error [0; 1] i = Some p ->
         exists s,
           logical_survival "bit-flip" p = Ok s
           /\ 0 <= draw cycle4 i 1%nat < 1
           /\ nth_error bits i
              = Some (of_bool (Qlt_bool (draw cycle4 i 1%nat) s))
           /\ (nth_error bits i = Some 1 <-> draw cycle4 i 1%nat < s)
           /\ nth_error (AUIL_trace "bit-flip" [0; 1]) i
              = Some (of_bool (Qlt_bool 0 (AUIL_signal "bit-flip" p)))
           /\ (nth_error (AUIL_trace "bit-flip" [0; 1]) i = Some 1
               <-> 0 < AUIL_signal "bit-flip" p).
Proof.
  assert (In "bit-flip"%string codes) as Hc by (simpl; auto).
  exact (logical_trace_draws nat cycle4 "bit-flip" [0; 1] 1%nat Hc cycle4_unit).
Defined.

(** The same run, evaluated: the samples are 1/4 and 1/2, the survival
    probabilities 1 and 0. *)
Example logical_trace_two_points :
  logical_trace cycle4 "bit-flip" [0; 1] 1%nat = Ok ([1; 0], 3%nat)
  /\ AUIL_trace "bit-flip" [0; 1] = [1; 0].
Proof. split; vm_compute; reflexivity. Qed.

(** * Further properties of the two models *)

(** ** Bernoulli's inequality and the order of the models *)

Lemma bernoulli_nat (m : nat) (p : Q) :
  p <= 1 -> 1 - inject_Z (Z.of_nat m) * p <= (1 - p) ^ Z.of_nat m.
Proof.
  intro Hp. induction m as [|m IH].
  - change (Z.of_nat 0) with 0%Z. change ((1 - p) ^ 0) with 1.
    change (inject_Z 0) with 0. lra.
  - rewrite Qpower_succ, Nat2Z.inj_succ. unfold Z.succ. rewrite inject_Z_plus.
    change (inject_Z 1) with 1.
    assert (0 <= inject_Z (Z.of_nat m)) as Hk.
    { change 0 with (inject_Z 0). rewrite <- Zle_Qle. lia. }
    generalize dependent ((1 - p) ^ Z.of_nat m).
    generalize dependent (inject_Z (Z.of_nat m)).
    intros k Hk x IH.
    assert (0 <= (1 - p) * (x - (1 - k * p))) by (apply Qmult_le_0_compat; lra).
    assert (0 <= k * (p * p)).
    { apply Qmult_le_0_compat; [exact Hk|]. nra. }
    lra.
Qed.

Lemma bernoulli (n : Z) (p : Q) :
  (0 <= n)%Z -> p <= 1 -> 1 - inject_Z n * p <= (1 - p) ^ n.
Proof.
  intros Hn Hp. rewrite <- (Z2Nat.id n Hn). apply bernoulli_nat. exact Hp.
Qed.

Lemma two_term_ge_pow_Z (n : Z) (p : Q) :
  (1 <= n)%Z -> 0 <= p <= 1 -> (1 - p) ^ n <= two_term n p.
Proof.
  intros Hn Hp. destruct (Z_as_succ n Hn) as [m ->].
  apply two_term_ge_pow. exact Hp.
Qed.

Lemma np_maximum_0_le (x y : Q) :
  0 <= y -> x <= y -> np_maximum 0 x <= y.
Proof.
  intros H0 Hx. destruct (np_maximum_0_cases x) as [[_ E] | [_ E]];
    rewrite E; assumption.
Qed.

(** X1.  The depolarizing value never exceeds the bit-flip value, and the
    bit-flip and phase-flip values coincide. *)
Theorem survival_order (p : Q) :
  0 <= p <= 1 ->
  exists vd vb,
    logical_survival "depolarizing" p = Ok vd
    /\ logical_survival "bit-flip" p = Ok vb
    /\ logical_survival "phase-flip" p = Ok vb
    /\ vd <= vb.
Proof.
  intro Hp. exists ((1 - p) ^ n_qubits), (two_term n_qubits p).
  split; [apply survival_depolarizing|].
  split; [apply survival_two_term; auto|].
  split; [apply survival_two_term; auto|].
  apply two_term_ge_pow_Z; [exact n_qubits_pos | exact Hp].
Qed.

Lemma survival_order_witness :
  exists vd vb,
    logical_survival "depolarizing" (1 # 3) = Ok vd
    /\ logical_survival "bit-flip" (1 # 3) = Ok vb
    /\ logical_survival "phase-flip" (1 # 3) = Ok vb
    /\ vd <= vb.
Proof.
  assert (0 <= 1 # 3 <= 1) as Hp by (split; discriminate).
  exact (survival_order (1 # 3) Hp).
Defined.

Lemma Ok_inj {A : Type} (a b : A) : Ok a = Ok b -> a = b.
Proof.
  intro H.
  exact (f_equal (fun r => match r with Ok x => x | Raise _ => a end) H).
Qed.

Lemma signal_le_pow (n : Z) (p : Q) :
  (0 <= n)%Z -> p <= 1 -> np_maximum 0 (1 - inject_Z n * p) <= (1 - p) ^ n.
Proof.
  intros Hn Hp. apply np_maximum_0_le.
  - apply Qpower_0_le. lra.
  - apply bernoulli; assumption.
Qed.

Lemma signal_le_two_term (n : Z) (p : Q) :
  (1 <= n)%Z -> 0 <= p <= 1 ->
  np_maximum 0 (1 - inject_Z n * p) <= two_term n p.
Proof.
  intros Hn Hp.
  apply Qle_trans with ((1 - p) ^ n).
  - apply signal_le_pow; [lia | apply Hp].
  - apply two_term_ge_pow_Z; assumption.
Qed.

Lemma signal_le_survival_aux (code : string) (p v : Q) :
  0 <= p <= 1 -> logical_survival code p = Ok v -> AUIL_signal code p <= v.
Proof.
  intros Hp Hv.
  assert (In code codes) as Hc.
  { destruct (in_dec string_dec code codes) as [H | H]; [exact H|].
    rewrite (survival_unknown code p H) in Hv. discriminate. }
  destruct (supported_cases code Hc) as [E | [E | E]].
  - rewrite (survival_two_term code p (or_introl E)) in Hv.
    apply Ok_inj in Hv. subst v.
    exact (signal_le_two_term n_qubits p n_qubits_pos Hp).
  - rewrite (survival_two_term code p (or_intror E)) in Hv.
    apply Ok_inj in Hv. subst v.
    exact (signal_le_two_term n_qubits p n_qubits_pos Hp).
  - subst code. rewrite survival_depolarizing in Hv.
    apply Ok_inj in Hv. subst v.
    exact (signal_le_pow n_qubits p ltac:(discriminate) (proj2 Hp)).
Qed.

(** ** Range and monotonicity of the signal *)

(** X3.  The signal is never negative, it is at most 1 for [p >= 0], and it
    is non-increasing in the noise probability, for every code. *)
Theorem AUIL_signal_range_monotone (code : string) (p1 p2 : Q) :
  0 <= AUIL_signal code p1
  /\ (0 <= p1 -> AUIL_signal code p1 <= 1)
  /\ (p1 <= p2 -> AUIL_signal code p2 <= AUIL_signal code p1).
Proof.
  unfold AUIL_signal.
  assert (0 < inject_Z n_qubits) as Hk by reflexivity.
  generalize dependent (inject_Z n_qubits). intros k Hk.
  destruct (np_maximum_0_cases (1 - k * p1)) as [[H1 E1] | [H1 E1]];
    destruct (np_maximum_0_cases (1 - k * p2)) as [[H2 E2] | [H2 E2]];
    rewrite E1, E2; (split; [|split]); intros; nra.
Qed.

(** X4.  A positive prediction of the classifier (AUIL value above 1/2)
    occurs only strictly below half the AUIL threshold: if the prediction
    at [p] is positive then [p < 1 / (2 * n_qubits)]. *)
Theorem pred_high_below_half_threshold (code : string) (p : Q) :
  pred_high code p = true -> p < 1 / (2 * inject_Z n_qubits).
Proof.
  rewrite pred_high_iff. unfold AUIL_signal.
  assert (0 < inject_Z n_qubits) as Hk by reflexivity.
  generalize dependent (inject_Z n_qubits). intros k Hk.
  rewrite (inv_threshold (2 * k) p) by lra.
  destruct (np_maximum_0_cases (1 - k * p)) as [[H1 E1] | [H1 E1]];
    rewrite E1; intro H; lra.
Qed.

Lemma pred_high_below_half_threshold_witness :
  0 < 1 / (2 * inject_Z n_qubits).
Proof.
  assert (pred_high "bit-flip" 0 = true) as H by (vm_compute; reflexivity).
  exact (pred_high_below_half_threshold "bit-flip" 0 H).
Defined.

(** * Further properties of the classification step *)

Lemma fraction_ext (P R : Q -> bool) (grid : list Q) :
  (forall p, In p grid -> P p = R p) -> fraction P grid = fraction R grid.
Proof.
  intro H. unfold fraction. rewrite (filter_ext_in P R grid H). reflexivity.
Qed.

Lemma filter_false {A : Type} (l : list A) : filter (fun _ => false) l = [].
Proof. induction l as [|x l IH]; [reflexivity | exact IH]. Qed.

Lemma fraction_none (P : Q -> bool) (grid : list Q) :
  (forall p, In p grid -> P p = false) -> fraction P grid == 0.
Proof.
  intro H. rewrite (fraction_ext P (fun _ => false) grid H). unfold fraction.
  rewrite filter_false. simpl List.length. change (inject_Z (Z.of_nat 0)) with 0.
  unfold Qdiv. apply Qmult_0_l.
Qed.

Lemma pred_implies_truth (code : string) (p : Q) :
  In code codes -> 0 <= p <= 1 ->
  pred_high code p = true ->
  truth_high code p = true /\ truth_low code p = false.
Proof.
  intros Hc Hp Hpred. destruct (survival_supported code p Hc) as [v Hv].
  pose proof (signal_le_survival_aux code p v Hp Hv) as Hle.
  apply pred_high_iff in Hpred.
  assert (1 # 2 < v) as Hlt by (eapply Qlt_le_trans; eassumption).
  unfold truth_high, truth_low. rewrite Hv. split.
  - apply Qlt_bool_iff. exact Hlt.
  - destruct (Qle_bool v (1 # 2)) eqn:E; [|reflexivity].
    apply Qle_bool_iff in E. exfalso. exact (Qlt_not_le _ _ Hlt E).
Qed.

Lemma rates_value (grid : list Q) (code : string) :
  In code codes -> grid <> [] ->
  rates grid code
  = Ok (Finite (fraction (fun p => truth_high code p && pred_high code p) grid),
        Finite (fraction (fun p => truth_low code p && pred_high code p) grid)).
Proof.
  intros Hc Hne.
  destruct (QEC_curve_supported grid code Hc) as [qec [Hq HF]].
  destruct (truth_pred_pointwise code grid qec HF) as [Ht Hf].
  unfold rates. rewrite Hq. simpl bind. cbv zeta.
  rewrite Ht, Hf, !np_mean_map by exact Hne. reflexivity.
Qed.

Lemma rates_value_unit (grid : list Q) (code : string) :
  In code codes -> grid <> [] ->
  Forall (fun p => 0 <= p <= 1) grid ->
  rates grid code
  = Ok (Finite (fraction (pred_high code) grid),
        Finite (fraction (fun _ => false) grid)).
Proof.
  intros Hc Hne Hgrid. rewrite Forall_forall in Hgrid.
  rewrite (rates_value grid code Hc Hne).
  rewrite (fraction_ext (fun p => truth_high code p && pred_high code p)
                        (pred_high code) grid).
  2:{ intros p Hp. destruct (pred_high code p) eqn:E; [|apply andb_false_r].
      destruct (pred_implies_truth code p Hc (Hgrid p Hp) E) as [Hhigh _].
      rewrite Hhigh. reflexivity. }
  rewrite (fraction_ext (fun p => truth_low code p && pred_high code p)
                        (fun _ => false) grid).
  2:{ intros p Hp. destruct (pred_high code p) eqn:E; [|apply andb_false_r].
      destruct (pred_implies_truth code p Hc (Hgrid p Hp) E) as [_ Hlow].
      rewrite Hlow. reflexivity. }
  reflexivity.
Qed.

(** X5.  Over a grid of probabilities the classifier has no false positives,
    and its true-positive rate is the fraction of points the signal detects. *)
Theorem rates_no_false_positive (grid : list Q) (code : string) :
  In code codes -> grid <> [] ->
  Forall (fun p => 0 <= p <= 1) grid ->
  exists tp fp,
    rates grid code = Ok (Finite tp, Finite fp)
    /\ fp == 0
    /\ tp = fraction (pred_high code) grid.
Proof.
  intros Hc Hne Hgrid. do 2 eexists.
  split; [exact (rates_value_unit grid code Hc Hne Hgrid)|].
  split; [|reflexivity].
  apply fraction_none. reflexivity.
Qed.

Lemma rates_no_false_positive_witness :
  exists tp fp,
    rates [0; 1] "depolarizing" = Ok (Finite tp, Finite fp)
    /\ fp == 0
    /\ tp = fraction (pred_high "depolarizing") [0; 1].
Proof.
  assert (In "depolarizing"%string codes) as Hc by (simpl; auto).
  assert ([0; 1] <> @nil Q) as Hne by discriminate.
  assert (Forall (fun p => 0 <= p <= 1) [0; 1]) as Hg
    by (repeat constructor; discriminate).
  exact (rates_no_false_positive [0; 1] "depolarizing" Hc Hne Hg).
Defined.





(** ** The script's own grid *)

Lemma p_vals_unit : Forall (fun p => 0 <= p <= 1) p_vals.
Proof.
  apply Forall_forall. intros p Hp.
  assert (forallb (fun p => Qle_bool 0 p && Qle_bool p 1) p_vals = true) as H
    by (vm_compute; reflexivity).
  rewrite forallb_forall in H. specialize (H p Hp).
  apply andb_true_iff in H. destruct H as [H0 H1].
  split; apply Qle_bool_iff; assumption.
Qed.

Lemma rates_p_vals (code : string) :
  In code codes -> rates p_vals code = Ok (Finite (1 # 41), Finite (0 # 41)).
Proof.
  intro Hc.
  assert (p_vals <> []) as Hne by (vm_compute; discriminate).
  rewrite (rates_value_unit p_vals code Hc Hne p_vals_unit).
  assert (fraction (pred_high code) p_vals = 1 # 41) as E1
    by (vm_compute; reflexivity).
  assert (fraction (fun _ => false) p_vals = 0 # 41) as E2
    by (vm_compute; reflexivity).
  rewrite E1, E2. reflexivity.
Qed.

(** Run on the script's 41-point grid, the loop leaves the same pair in
    every slot: a true-positive rate of 1/41 (the point [p = 0]) and a
    false-positive rate of 0. *)
Theorem true_false_pos_p_vals :
  true_false_pos p_vals
  = Ok ([Finite (1 # 41); Finite (1 # 41); Finite (1 # 41)],
        [Finite (0 # 41); Finite (0 # 41); Finite (0 # 41)]).
Proof.
  unfold true_false_pos, codes. cbn [comprehension].
  rewrite !rates_p_vals by (simpl; auto). reflexivity.
Qed.

(** * Unsupported codes *)

Lemma QEC_curve_unknown (grid : list Q) (code : string) :
  ~ In code codes -> grid <> [] ->
  QEC_curve grid code = Raise (ValueError "Unknown code").
Proof.
  intros Hout Hne. destruct grid as [|p grid]; [contradiction|].
  unfold QEC_curve. cbn [comprehension].
  rewrite (survival_unknown code p Hout). reflexivity.
Qed.



(** * Further properties of the single run *)

Section SingleRunMore.

Variable RandomState : Type.
Variable rand : RandomState -> Q * RandomState.

Lemma trace_loop_fused (code : string) (grid : list Q) :
  forall (g : RandomState) (done : list Q),
    trace_loop rand code
               (combine (seq (List.length done) (List.length grid)) grid) g
               (done ++ repeat 1 (List.length grid))
    = (vals <- QEC_curve grid code ;;
       Ok (done ++ outcomes rand g vals, advance rand (List.length grid) g)).
Proof.
  unfold QEC_curve. induction grid as [|p grid IH]; intros g done.
  - reflexivity.
  - cbn [List.length seq combine trace_loop comprehension repeat].
    destruct (rand g) as [u g'] eqn:Er.
    destruct (logical_survival code p) as [s|e]; [|reflexivity].
    cbn [bind]. rewrite setitem_app. cbn [bind].
    specialize (IH g' (done ++ [of_bool (Qlt_bool u s)])).
    rewrite length_app, Nat.add_1_r, <- !app_assoc in IH.
    cbn [app] in IH. rewrite IH.
    destruct (comprehension (logical_survival code) grid) as [vals|e];
      [|reflexivity].
    cbn [bind outcomes advance]. rewrite Er. cbn [fst snd].
    rewrite <- app_assoc. reflexivity.
Qed.

Lemma logical_trace_eq (code : string) (grid : list Q) (g : RandomState) :
  logical_trace rand code grid g
  = (vals <- QEC_curve grid code ;;
     Ok (outcomes rand g vals, advance rand (List.length grid) g)).
Proof.
  exact (trace_loop_fused code grid g []).
Qed.

(** X8.  The loop of the single run is the vectorised computation: evaluate
    the QEC curve over the trial grid, then compare it with the samples
    drawn in order. Both sides raise the same error, for every code. *)
Theorem logical_trace_fused (code : string) (grid : list Q) (g : RandomState) :
  logical_trace rand code grid g
  = (vals <- QEC_curve grid code ;;
     Ok (outcomes rand g vals, advance rand (List.length grid) g)).
Proof.
  apply logical_trace_eq.
Qed.

Lemma comprehension_app {A B : Type} (f : A -> result B) (xs ys : list A) :
  comprehension f (xs ++ ys)
  = (us <- comprehension f xs ;; vs <- comprehension f ys ;; Ok (us ++ vs)).
Proof.
  induction xs as [|x xs IH]; cbn [app comprehension bind].
  - destruct (comprehension f ys); reflexivity.
  - destruct (f x) as [y|e]; [|reflexivity]. cbn [bind]. rewrite IH.
    destruct (comprehension f xs) as [us|e]; [|reflexivity]. cbn [bind].
    destruct (comprehension f ys) as [vs|e]; reflexivity.
Qed.

Lemma comprehension_length {A B : Type} (f : A -> result B) (xs : list A) (ys : list B) :
  comprehension f xs = Ok ys -> List.length ys = List.length xs.
Proof.
  intro H. apply comprehension_Forall2 in H. symmetry. exact (Forall2_length H).
Qed.

Lemma outcomes_app (g : RandomState) (us vs : list Q) :
  outcomes rand g (us ++ vs)
  = outcomes rand g us ++ outcomes rand (advance rand (List.length us) g) vs.
Proof.
  revert g. induction us as [|u us IH]; intro g; [reflexivity|].
  cbn [app outcomes List.length advance]. rewrite IH. reflexivity.
Qed.

Lemma advance_add (a b : nat) (g : RandomState) :
  advance rand (a + b) g = advance rand b (advance rand a g).
Proof.
  revert g. induction a as [|a IH]; intro g; [reflexivity|].
  cbn [Nat.add advance]. apply IH.
Qed.

(** X9.  A run over two grids placed end to end is the run over the first
    followed by the run over the second, started from the generator state
    the first one leaves behind. *)
Theorem logical_trace_app (code : string) (grid1 grid2 : list Q) (g : RandomState) :
  logical_trace rand code (grid1 ++ grid2) g
  = (r1 <- logical_trace rand code grid1 g ;;
     r2 <- logical_trace rand code grid2 (snd r1) ;;
     Ok (fst r1 ++ fst r2, snd r2)).
Proof.
  rewrite (logical_trace_eq code (grid1 ++ grid2) g),
          (logical_trace_eq code grid1 g).
  unfold QEC_curve. rewrite comprehension_app.
  destruct (comprehension (logical_survival code) grid1) as [v1|e] eqn:E1;
    [|reflexivity].
  cbn [bind fst snd app].
  rewrite (logical_trace_eq code grid2 (advance rand (List.length grid1) g)).
  unfold QEC_curve.
  destruct (comprehension (logical_survival code) grid2) as [v2|e] eqn:E2;
    [|reflexivity].
  cbn [bind fst snd app].
  rewrite outcomes_app, length_app, advance_add.
  rewrite (comprehension_length _ _ _ E1). reflexivity.
Qed.

End SingleRunMore.

(** ** The boundary points of a run *)

Lemma pow_at_0 (n : Z) (p : Q) : p == 0 -> (1 - p) ^ n == 1.
Proof.
  intro Hp. assert (1 - p == 1) as E by (rewrite Hp; reflexivity).
  rewrite E. apply Qpower_1.
Qed.

Lemma pow_at_1 (n : Z) (p : Q) : (n <> 0)%Z -> p == 1 -> (1 - p) ^ n == 0.
Proof.
  intros Hn Hp. assert (1 - p == 0) as E by (rewrite Hp; reflexivity).
  rewrite E. apply Qpower_0. exact Hn.
Qed.

Lemma two_term_at_0 (n : Z) (p : Q) : p == 0 -> two_term n p == 1.
Proof.
  intro Hp. unfold two_term.
  rewrite (pow_at_0 n p Hp), (pow_at_0 (n - 1) p Hp), Hp. ring.
Qed.

Lemma two_term_at_1 (n : Z) (p : Q) : (2 <= n)%Z -> p == 1 -> two_term n p == 0.
Proof.
  intros Hn Hp. unfold two_term.
  rewrite (pow_at_1 n p ltac:(lia) Hp), (pow_at_1 (n - 1) p ltac:(lia) Hp).
  ring.
Qed.

Lemma survival_boundary_eq (code : string) (p v : Q) :
  logical_survival code p = Ok v ->
  (p == 0 -> v == 1) /\ (p == 1 -> v == 0).
Proof.
  intro Hv.
  assert (In code codes) as Hc.
  { destruct (in_dec string_dec code codes) as [H | H]; [exact H|].
    rewrite (survival_unknown code p H) in Hv. discriminate. }
  destruct (supported_cases code Hc) as [E | [E | E]].
  - rewrite (survival_two_term code p (or_introl E)) in Hv.
    apply Ok_inj in Hv. subst v. split.
    + exact (two_term_at_0 n_qubits p).
    + exact (two_term_at_1 n_qubits p ltac:(discriminate)).
  - rewrite (survival_two_term code p (or_intror E)) in Hv.
    apply Ok_inj in Hv. subst v. split.
    + exact (two_term_at_0 n_qubits p).
    + exact (two_term_at_1 n_qubits p ltac:(discriminate)).
  - subst code. rewrite survival_depolarizing in Hv.
    apply Ok_inj in Hv. subst v. split.
    + exact (pow_at_0 n_qubits p).
    + exact (pow_at_1 n_qubits p ltac:(discriminate)).
Qed.

Section SingleRunBoundary.

Variable RandomState : Type.
Variable seed : Z -> RandomState.
Variable rand : RandomState -> Q * RandomState.
Hypothesis rand_unit : forall g, 0 <= fst (rand g) < 1.

Lemma trace_entry (code : string) (grid bits : list Q) (g g' : RandomState)
      (i : nat) (p : Q) :
  logical_trace rand code grid g = Ok (bits, g') ->
  nth_error grid i = Some p ->
  exists s, logical_survival code p = Ok s
    /\ nth_error bits i = Some (of_bool (Qlt_bool (draw rand i g) s)).
Proof.
  intros Hrun Hi. rewrite logical_trace_eq in Hrun.
  destruct (QEC_curve grid code) as [vals|e] eqn:Hq; [|discriminate].
  cbn [bind] in Hrun. apply Ok_inj in Hrun.
  apply (f_equal fst) in Hrun. cbn [fst] in Hrun. subst bits.
  apply comprehension_Forall2 in Hq.
  destruct (curve_of_nth code grid vals i p Hq Hi) as [s [Hs Hn]].
  exists s. split; [exact Hs|].
  apply outcomes_nth. exact Hn.
Qed.

Lemma trace_boundary (code : string) (grid bits : list Q)
      (g g' : RandomState) (i : nat) (p : Q) :
  logical_trace rand code grid g = Ok (bits, g') ->
  nth_error grid i = Some p ->
  (p == 0 -> nth_error bits i = Some 1)
  /\ (p == 1 -> nth_error bits i = Some 0).
Proof.
  intros Hrun Hi.
  destruct (trace_entry code grid bits g g' i p Hrun Hi) as [s [Hs Hn]].
  destruct (survival_boundary_eq code p s Hs) as [H0 H1].
  destruct (rand_unit (advance rand i g)) as [Hu0 Hu1].
  fold (draw rand i g) in Hu0, Hu1. rewrite Hn.
  generalize dependent (draw rand i g). intros u _ Hu0 Hu1.
  split; intro Hp.
  - assert (Qlt_bool u s = true) as E.
    { apply Qlt_bool_iff. rewrite (H0 Hp). exact Hu1. }
    rewrite E. reflexivity.
  - assert (Qlt_bool u s = false) as E.
    { apply Qlt_bool_false_iff. rewrite (H1 Hp). exact Hu0. }
    rewrite E. reflexivity.
Qed.

(** X10.  With samples in [[0,1)] the two end points of the noise range are
    not random: a completed run stores 1 at every grid point equal to 0 and
    0 at every grid point equal to 1, whatever the generator yields. *)
Theorem logical_trace_boundary (code : string) (grid bits : list Q)
        (g g' : RandomState) (i : nat) (p : Q) :
  logical_trace rand code grid g = Ok (bits, g') ->
  nth_error grid i = Some p ->
  (p == 0 -> nth_error bits i = Some 1)
  /\ (p == 1 -> nth_error bits i = Some 0).
Proof.
  apply trace_boundary.
Qed.

Lemma single_run_p_ends :
  exists p0 p1,
    nth_error single_run_p 0 = Some p0 /\ p0 == 0
    /\ nth_error single_run_p 49 = Some p1 /\ p1 == 1.
Proof.
  do 2 eexists. split; [vm_compute; reflexivity|].
  split; [reflexivity|]. split; [vm_compute; reflexivity | reflexivity].
Qed.

(** X11.  The script's single run ("bit-flip", 50 points, seed 42) never
    raises. Its logical trace has 50 entries, the first 1 and the last 0
    whatever the generator yields, and its AUIL trace is 1 at [p = 0] and 0
    at the other 49 points. *)
Theorem single_run_shape :
  exists bits,
    single_run seed rand = Ok (bits, 1 :: repeat 0 49)
    /\ List.length bits = 50%nat
    /\ nth_error bits 0 = Some 1
    /\ nth_error bits 49 = Some 0.
Proof.
  assert (In single_code codes) as Hc by (simpl; auto).
  destruct (QEC_curve_supported single_run_p single_code Hc) as [qec [Hq HF]].
  assert (List.length single_run_p = 50%nat) as Hlen by (vm_compute; reflexivity).
  assert (AUIL_trace single_code single_run_p = 1 :: repeat 0 49) as Ha
    by (vm_compute; reflexivity).
  assert (logical_trace rand single_code single_run_p (seed 42)
          = Ok (outcomes rand (seed 42) qec,
                advance rand (List.length single_run_p) (seed 42))) as Hrun.
  { rewrite logical_trace_eq, Hq. reflexivity. }
  exists (outcomes rand (seed 42) qec).
  destruct single_run_p_ends as [p0 [p1 [Hn0 [Hp0 [Hn1 Hp1]]]]].
  split; [|split; [|split]].
  - unfold single_run. rewrite Hrun. cbn [bind fst]. rewrite Ha. reflexivity.
  - rewrite outcomes_length, (curve_of_length _ _ _ HF). exact Hlen.
  - exact (proj1 (trace_boundary _ _ _ _ _ 0%nat p0 Hrun Hn0) Hp0).
  - exact (proj2 (trace_boundary _ _ _ _ _ 49%nat p1 Hrun Hn1) Hp1).
Qed.

End SingleRunBoundary.

Lemma logical_trace_boundary_witness :
  (0 == 0 -> nth_error [1; 0] 0 = Some 1)
  /\ (0 == 1 -> nth_error [1; 0] 0 = Some 0).
Proof.
  assert (logical_trace cycle4 "bit-flip" [0; 1] 1%nat = Ok ([1; 0], 3%nat))
    as Hrun by (vm_compute; reflexivity).
  assert (nth_error [0; 1] 0 = Some 0) as Hi by reflexivity.
  exact (logical_trace_boundary nat cycle4 cycle4_unit "bit-flip" [0; 1]
           [1; 0] 1%nat 3%nat 0%nat 0 Hrun Hi).
Defined.

Lemma single_run_shape_witness :
  exists bits,
    single_run Z.to_nat cycle4 = Ok (bits, 1 :: repeat 0 49)
    /\ List.length bits = 50%nat
    /\ nth_error bits 0 = Some 1
    /\ nth_error bits 49 = Some 0.
Proof.
  exact (single_run_shape nat Z.to_nat cycle4 cycle4_unit).
Defined.

(** * The tables and the aggregated curves *)

Lemma unsupported_eqb (code : string) :
  ~ In code codes ->
  String.eqb code "bit-flip" = false
  /\ String.eqb code "phase-flip" = false
  /\ String.eqb code "depolarizing" = false.
Proof.
  intro H. repeat split; apply String.eqb_neq; intro E; apply H; rewrite E;
    simpl; auto.
Qed.

(** X12.  Both threshold tables are defined exactly on the supported codes:
    the QEC entry is 1/2, the AUIL entry is [1 / n_qubits], any other key is
    missing, and the bar-chart lookups over [codes] all succeed. *)
Theorem threshold_tables (code : string) :
  (In code codes ->
   dict_get threshold_QEC code = Some (1 # 2)
   /\ dict_get threshold_AUIL code = Some (1 / inject_Z n_qubits))
  /\ (~ In code codes ->
      dict_get threshold_QEC code = None
      /\ dict_get threshold_AUIL code = None)
  /\ bars_QEC = Some [1 # 2; 1 # 2; 1 # 2]
  /\ bars_AUIL = Some [1 / inject_Z n_qubits; 1 / inject_Z n_qubits;
                       1 / inject_Z n_qubits].
Proof.
  split; [|split; [|split; reflexivity]].
  - intro Hc. destruct (supported_cases code Hc) as [E | [E | E]]; subst;
      split; reflexivity.
  - intro Hout. destruct (unsupported_eqb code Hout) as [E1 [E2 E3]].
    unfold threshold_QEC, threshold_AUIL, codes. cbn [map dict_get].
    rewrite E1, E2, E3. split; reflexivity.
Qed.

(** X13.  The AUIL threshold stored in the table is where the signal reaches
    zero, and the AUIL trace is on exactly at the grid points below it. *)
Theorem AUIL_trace_threshold (code : string) (grid : list Q) (i : nat) (p : Q) :
  In code codes ->
  nth_error grid i = Some p ->
  exists t,
    dict_get threshold_AUIL code = Some t
    /\ AUIL_signal code t == 0
    /\ (nth_error (AUIL_trace code grid) i = Some 1 <-> p < t)
    /\ (nth_error (AUIL_trace code grid) i = Some 0 <-> t <= p).
Proof.
  intros Hc Hi. exists (1 / inject_Z n_qubits).
  split.
  { destruct (supported_cases code Hc) as [E | [E | E]]; subst; reflexivity. }
  assert (nth_error (AUIL_trace code grid) i
          = Some (of_bool (Qlt_bool 0 (AUIL_signal code p)))) as Ha.
  { unfold AUIL_trace, AUIL_signal_array. rewrite !nth_error_map, Hi.
    reflexivity. }
  rewrite Ha. unfold AUIL_signal.
  assert (0 < inject_Z n_qubits) as Hk by reflexivity.
  pose proof (inv_threshold (inject_Z n_qubits) p Hk) as Hthr.
  assert (inject_Z n_qubits * (1 / inject_Z n_qubits) == 1) as Hr
    by (field; lra).
  generalize dependent (1 / inject_Z n_qubits).
  generalize dependent (inject_Z n_qubits). intros k Hk t Hthr Hr.
  split; [|split].
  - destruct (np_maximum_0_cases (1 - k * t)) as [[H1 E1] | [H1 E1]];
      [lra | exact E1].
  - destruct (np_maximum_0_cases (1 - k * p)) as [[H1 E1] | [H1 E1]].
    + rewrite E1. assert (Qlt_bool 0 (1 - k * p) = true) as E
        by (apply Qlt_bool_iff; exact H1).
      rewrite E. split; [intros _; apply Hthr; lra | reflexivity].
    + assert (Qlt_bool 0 (np_maximum 0 (1 - k * p)) = false) as E
        by (apply Qlt_bool_false_iff; rewrite E1; apply Qle_refl).
      rewrite E. split; [discriminate|].
      intro Hlt. apply Hthr in Hlt. lra.
  - destruct (np_maximum_0_cases (1 - k * p)) as [[H1 E1] | [H1 E1]].
    + rewrite E1. assert (Qlt_bool 0 (1 - k * p) = true) as E
        by (apply Qlt_bool_iff; exact H1).
      rewrite E. split; [discriminate|].
      intro Hge. exfalso. apply (Qle_not_lt _ _ Hge). apply Hthr. lra.
    + assert (Qlt_bool 0 (np_maximum 0 (1 - k * p)) = false) as E
        by (apply Qlt_bool_false_iff; rewrite E1; apply Qle_refl).
      rewrite E. split; [|reflexivity].
      intros _. apply Qnot_lt_le. intro Hlt. apply Hthr in Hlt. lra.
Qed.

Lemma AUIL_trace_threshold_witness :
  exists t,
    dict_get threshold_AUIL "phase-flip" = Some t
    /\ AUIL_signal "phase-flip" t == 0
    /\ (nth_error (AUIL_trace "phase-flip" [0; 1 # 2]) 1 = Some 1 <-> 1 # 2 < t)
    /\ (nth_error (AUIL_trace "phase-flip" [0; 1 # 2]) 1 = Some 0 <-> t <= 1 # 2).
Proof.
  assert (In "phase-flip"%string codes) as Hc by (simpl; auto).
  assert (nth_error [0; 1 # 2] 1 = Some (1 # 2)) as Hi by reflexivity.
  exact (AUIL_trace_threshold "phase-flip" [0; 1 # 2] 1%nat (1 # 2) Hc Hi).
Defined.

(** ** The aggregation loop *)

Lemma aggregate_value (grid : list Q) :
  exists qb qp qd,
    QEC_curve grid "bit-flip" = Ok qb
    /\ QEC_curve grid "phase-flip" = Ok qp
    /\ QEC_curve grid "depolarizing" = Ok qd
    /\ aggregate grid
       = Ok ([("bit-flip", qb); ("phase-flip", qp); ("depolarizing", qd)],
             [("bit-flip", AUIL_curve grid "bit-flip");
              ("phase-flip", AUIL_curve grid "phase-flip");
              ("depolarizing", AUIL_curve grid "depolarizing")])%string.
Proof.
  destruct (QEC_curve_supported grid "bit-flip") as [qb [Hb _]];
    [simpl; auto|].
  destruct (QEC_curve_supported grid "phase-flip") as [qp [Hp _]];
    [simpl; auto|].
  destruct (QEC_curve_supported grid "depolarizing") as [qd [Hd _]];
    [simpl; auto|].
  exists qb, qp, qd. repeat (split; [assumption|]).
  unfold QEC_curve in Hb, Hp, Hd.
  unfold aggregate, codes. cbn [aggregate_loop].
  rewrite Hb. cbn [bind]. rewrite Hp. cbn [bind]. rewrite Hd. cbn [bind].
  reflexivity.
Qed.

(** X14.  For every grid the aggregation loop completes, and the two
    dictionaries it leaves have exactly the supported codes as keys, in
    order; a lookup under a supported code yields that code's curve, any
    other key is missing. *)
Theorem aggregate_lookup (grid : list Q) :
  exists QEC_curves AUIL_curves,
    aggregate grid = Ok (QEC_curves, AUIL_curves)
    /\ map fst QEC_curves = codes
    /\ map fst AUIL_curves = codes
    /\ forall code,
         (In code codes ->
          exists qec,
            QEC_curve grid code = Ok qec
            /\ dict_get QEC_curves code = Some qec
            /\ dict_get AUIL_curves code = Some (AUIL_curve grid code))
         /\ (~ In code codes ->
             dict_get QEC_curves code = None
             /\ dict_get AUIL_curves code = None).
Proof.
  destruct (aggregate_value grid) as [qb [qp [qd [Hb [Hp [Hd Hagg]]]]]].
  do 2 eexists. split; [exact Hagg|].
  split; [reflexivity|]. split; [reflexivity|].
  intro code. split.
  - intro Hc. destruct (supported_cases code Hc) as [E | [E | E]]; subst code.
    + exists qb. repeat split; [exact Hb].
    + exists qp. repeat split; [exact Hp].
    + exists qd. repeat split; [exact Hd].
  - intro Hout. destruct (unsupported_eqb code Hout) as [E1 [E2 E3]].
    cbn [dict_get]. rewrite E1, E2, E3. split; reflexivity.
Qed.

Lemma QEC_curve_phase_bit (grid : list Q) :
  QEC_curve grid "phase-flip" = QEC_curve grid "bit-flip".
Proof.
  unfold QEC_curve. induction grid as [|p grid IH]; [reflexivity|].
  cbn [comprehension]. rewrite IH. reflexivity.
Qed.

(** X15.  The heat map is a rectangular 3-by-grid matrix: one row per code,
    each as long as the grid. The bit-flip and phase-flip rows are equal,
    and over a grid of probabilities the depolarizing row lies pointwise
    below them. *)
Theorem heatmap_rows (grid : list Q) (QEC_curves AUIL_curves : dict (list Q)) :
  aggregate grid = Ok (QEC_curves, AUIL_curves) ->
  exists rb rp rd,
    heatmap_data QEC_curves = Some [rb; rp; rd]
    /\ List.length rb = List.length grid
    /\ List.length rp = List.length grid
    /\ List.length rd = List.length grid
    /\ rb = rp
    /\ (Forall (fun p => 0 <= p <= 1) grid ->
        Forall2 (fun d b => d <= b) rd rb).
Proof.
  intro Hagg.
  destruct (aggregate_value grid) as [qb [qp [qd [Hb [Hp [Hd Hval]]]]]].
  rewrite Hval in Hagg. apply Ok_inj in Hagg.
  apply (f_equal fst) in Hagg. cbn [fst] in Hagg. subst QEC_curves.
  exists qb, qp, qd. split; [reflexivity|].
  pose proof (QEC_curve_phase_bit grid) as Hsame.
  assert (qb = qp) as Ebp.
  { rewrite Hsame, Hb in Hp. apply Ok_inj in Hp. exact Hp. }
  unfold QEC_curve in Hb, Hp, Hd.
  split; [exact (comprehension_length _ _ _ Hb)|].
  split; [exact (comprehension_length _ _ _ Hp)|].
  split; [exact (comprehension_length _ _ _ Hd)|].
  split; [exact Ebp|].
  intro Hgrid. apply comprehension_Forall2 in Hb, Hd. clear Hp Hval Hsame Ebp.
  revert qb Hb. induction Hd as [|p d grid qd Hdp _ IH]; intros qb Hb.
  - inversion Hb. constructor.
  - inversion Hb as [|p' b grid' qb' Hbp Hrest]; subst.
    inversion Hgrid as [|p' grid' Hp Hg]; subst.
    constructor; [|apply IH; assumption].
    rewrite survival_depolarizing in Hdp. apply Ok_inj in Hdp. subst d.
    rewrite (survival_two_term "bit-flip" p (or_introl eq_refl)) in Hbp.
    apply Ok_inj in Hbp. subst b.
    exact (two_term_ge_pow_Z n_qubits p n_qubits_pos Hp).
Qed.

Lemma heatmap_rows_witness :
  exists rb rp rd,
    heatmap_data [("bit-flip", [1; 0]); ("phase-flip", [1; 0]);
                  ("depolarizing", [1; 0])]%string
    = Some [rb; rp; rd]
    /\ List.length rb = List.length [0; 1]
    /\ List.length rp = List.length [0; 1]
    /\ List.length rd = List.length [0; 1]
    /\ rb = rp
    /\ (Forall (fun p => 0 <= p <= 1) [0; 1] ->
        Forall2 (fun d b => d <= b) rd rb).
Proof.
  assert (aggregate [0; 1]
          = Ok ([("bit-flip", [1; 0]); ("phase-flip", [1; 0]);
                 ("depolarizing", [1; 0])],
                [("bit-flip", [1; 0]); ("phase-flip", [1; 0]);
                 ("depolarizing", [1; 0])])%string) as Hagg
    by (vm_compute; reflexivity).
  exact (heatmap_rows [0; 1] _ _ Hagg).
Defined.

(** ** The rates of the three codes *)

(** X16.  Over a non-empty grid of probabilities the loop over the codes
    stores the same pair three times: the true-positive rate is the fraction
    of points the signal detects, which does not depend on the code, and the
    false-positive rate is zero. *)
Theorem true_false_pos_same (grid : list Q) :
  grid <> [] ->
  Forall (fun p => 0 <= p <= 1) grid ->
  exists tp fp,
    true_false_pos grid
    = Ok ([Finite tp; Finite tp; Finite tp], [Finite fp; Finite fp; Finite fp])
    /\ tp = fraction (pred_high "bit-flip") grid
    /\ fp == 0.
Proof.
  intros Hne Hgrid.
  exists (fraction (pred_high "bit-flip") grid), (fraction (fun _ => false) grid).
  split; [|split; [reflexivity | apply fraction_none; reflexivity]].
  unfold true_false_pos, codes. cbn [comprehension].
  rewrite !rates_value_unit by (try assumption; simpl; auto).
  reflexivity.
Qed.

Lemma true_false_pos_same_witness :
  exists tp fp,
    true_false_pos [0; 1 # 2; 1]
    = Ok ([Finite tp; Finite tp; Finite tp], [Finite fp; Finite fp; Finite fp])
    /\ tp = fraction (pred_high "bit-flip") [0; 1 # 2; 1]
    /\ fp == 0.
Proof.
  assert ([0; 1 # 2; 1] <> @nil Q) as Hne by discriminate.
  assert (Forall (fun p => 0 <= p <= 1) [0; 1 # 2; 1]) as Hg
    by (repeat constructor; discriminate).
  exact (true_false_pos_same [0; 1 # 2; 1] Hne Hg).
Defined.

(** ** The factored form of the two-term value *)

Lemma two_term_factor_nat (m : nat) (p : Q) :
  two_term (Z.of_nat (S m)) p
  == (1 - p) ^ Z.of_nat m * (1 + inject_Z (Z.of_nat m) * p).
Proof.
  rewrite two_term_nat, Qpower_succ, Nat2Z.inj_succ. unfold Z.succ.
  rewrite inject_Z_plus. change (inject_Z 1) with 1.
  generalize (inject_Z (Z.of_nat m)). generalize ((1 - p) ^ Z.of_nat m).
  intros x k. ring.
Qed.

Lemma two_term_factor (n : Z) (p : Q) :
  (1 <= n)%Z ->
  two_term n p == (1 - p) ^ (n - 1) * (1 + inject_Z (n - 1) * p).
Proof.
  intro Hn. destruct (Z_as_succ n Hn) as [m ->].
  replace (Z.of_nat (S m) - 1)%Z with (Z.of_nat m) by lia.
  apply two_term_factor_nat.
Qed.

(** X17.  For "bit-flip" and "phase-flip" and every noise probability [p]
    in [[0,1]], the value factors as the zero-error probability of
    [n - 1] qubits times [1 + (n - 1) * p]. *)
Theorem logical_survival_factored (code : string) (p : Q) :
  code = "bit-flip"%string \/ code = "phase-flip"%string ->
  0 <= p <= 1 ->
  exists v,
    logical_survival code p = Ok v
    /\ v == (1 - p) ^ (n_qubits - 1) * (1 + inject_Z (n_qubits - 1) * p).
Proof.
  intros Hc _. exists (two_term n_qubits p).
  split; [exact (survival_two_term code p Hc)|].
  exact (two_term_factor n_qubits p n_qubits_pos).
Qed.

Lemma logical_survival_factored_witness :
  exists v,
    logical_survival "phase-flip" (1 # 3) = Ok v
    /\ v == (1 - (1 # 3)) ^ (n_qubits - 1)
            * (1 + inject_Z (n_qubits - 1) * (1 # 3)).
Proof.
  assert (0 <= 1 # 3 <= 1) as Hp by (split; discriminate).
  exact (logical_survival_factored "phase-flip" (1 # 3)
           (or_intror eq_refl) Hp).
Defined.

(** ** An unsupported code in the single run *)

Section SingleRunUnknown.

Variable RandomState : Type.
Variable rand : RandomState -> Q * RandomState.

(** X18.  For an unsupported code, the run over the empty grid returns the
    empty trace and leaves the generator untouched; over a grid with at
    least one point it raises the error of the survival model. *)
Theorem logical_trace_unknown (code : string) (grid : list Q) (g : RandomState) :
  ~ In code codes ->
  logical_trace rand code [] g = Ok ([], g)
  /\ (grid <> [] ->
      logical_trace rand code grid g = Raise (ValueError "Unknown code")).
Proof.
  intro Hout. split; [reflexivity|]. intro Hne.
  rewrite logical_trace_eq, (QEC_curve_unknown grid code Hout Hne).
  reflexivity.
Qed.

End SingleRunUnknown.

Lemma logical_trace_unknown_witness :
  logical_trace cycle4 "surface" [] 2%nat = Ok ([], 2%nat)
  /\ ([1 # 2] <> [] ->
      logical_trace cycle4 "surface" [1 # 2] 2%nat
      = Raise (ValueError "Unknown code")).
Proof.
  assert (~ In "surface"%string codes) as Hout.
  { simpl. intros [H | [H | [H | []]]]; discriminate H. }
  exact (logical_trace_unknown nat cycle4 "surface" [1 # 2] 2%nat Hout).
Defined.

(** * The noise grids *)

Lemma nth_error_map_seq {A : Type} (f : nat -> A) (len i start : nat) (x : A) :
  nth_error (map f (seq start len)) i = Some x ->
  (i < len)%nat /\ x = f (start + i)%nat.
Proof.
  revert i start. induction len as [|len IH]; intros [|i] start H;
    simpl in H; try discriminate.
  - injection H as <-. split; [lia | rewrite Nat.add_0_r; reflexivity].
  - destruct (IH i (S start) H) as [Hlt Hx]. split; [lia|].
    rewrite Hx. f_equal. lia.
Qed.

Lemma linspace_length (start stop : Q) (num : nat) :
  List.length (linspace start stop num) = num.
Proof.
  destruct num as [|[|m]]; [reflexivity | reflexivity |].
  unfold linspace. rewrite length_map, length_seq. reflexivity.
Qed.

Lemma linspace_nth (start stop : Q) (m i : nat) (x : Q) :
  nth_error (linspace start stop (S (S m))) i = Some x ->
  (i <= S m)%nat
  /\ x = start + inject_Z (Z.of_nat i)
                 * ((stop - start) / inject_Z (Z.of_nat (S m))).
Proof.
  unfold linspace. intro H.
  apply nth_error_map_seq in H. destruct H as [Hlt Hx].
  split; [lia | exact Hx].
Qed.

(** X19.  A grid built by [linspace] with at least two points and [start <
    stop] has the requested number of points, starts at [start], ends at
    [stop], stays between the two and is strictly increasing. *)
Theorem linspace_grid (start stop : Q) (num : nat) :
  start < stop -> (2 <= num)%nat ->
  List.length (linspace start stop num) = num
  /\ (exists x, nth_error (linspace start stop num) 0 = Some x /\ x == start)
  /\ (exists y, nth_error (linspace start stop num) (num - 1) = Some y
                /\ y == stop)
  /\ (forall i x, nth_error (linspace start stop num) i = Some x ->
                  start <= x <= stop)
  /\ (forall i j x y, (i < j)%nat ->
        nth_error (linspace start stop num) i = Some x ->
        nth_error (linspace start stop num) j = Some y ->
        x < y).
Proof.
  intros Hlt Hnum. destruct num as [|[|m]]; [lia | lia | clear Hnum].
  assert (0 < inject_Z (Z.of_nat (S m))) as Hm.
  { change 0 with (inject_Z 0). rewrite <- Zlt_Qlt. lia. }
  assert (inject_Z (Z.of_nat (S m))
          * ((stop - start) / inject_Z (Z.of_nat (S m))) == stop - start) as Hstep
    by (field; lra).
  assert (0 < (stop - start) / inject_Z (Z.of_nat (S m))) as Hpos.
  { apply Qlt_shift_div_l; [exact Hm | lra]. }
  assert (forall i, (i < S (S m))%nat ->
            nth_error (linspace start stop (S (S m))) i
            = Some (start + inject_Z (Z.of_nat i)
                            * ((stop - start) / inject_Z (Z.of_nat (S m)))))
    as Hnth.
  { intros i Hi.
    destruct (nth_error (linspace start stop (S (S m))) i) as [x|] eqn:E.
    - destruct (linspace_nth start stop m i x E) as [_ ->]. reflexivity.
    - apply nth_error_None in E. rewrite linspace_length in E. lia. }
  split; [apply linspace_length|].
  split; [|split; [|split]].
  - eexists. split; [apply Hnth; lia|].
    change (inject_Z (Z.of_nat 0)) with 0. ring.
  - eexists. replace (S (S m) - 1)%nat with (S m) by lia.
    split; [apply Hnth; lia|]. rewrite Hstep. ring.
  - intros i x Hi. destruct (linspace_nth start stop m i x Hi) as [Hle ->].
    assert (0 <= inject_Z (Z.of_nat i)) as Hi0.
    { change 0 with (inject_Z 0). rewrite <- Zle_Qle. lia. }
    assert (inject_Z (Z.of_nat i) <= inject_Z (Z.of_nat (S m))) as Hi1.
    { rewrite <- Zle_Qle. lia. }
    generalize dependent ((stop - start) / inject_Z (Z.of_nat (S m))).
    generalize dependent (inject_Z (Z.of_nat (S m))).
    generalize dependent (inject_Z (Z.of_nat i)).
    intros a Ha0 k Hk Hak h Hh Hh0 _. split; nra.
  - intros i j x y Hij Hi Hj.
    destruct (linspace_nth start stop m i x Hi) as [_ ->].
    destruct (linspace_nth start stop m j y Hj) as [_ ->].
    assert (inject_Z (Z.of_nat i) < inject_Z (Z.of_nat j)) as Hlt'.
    { rewrite <- Zlt_Qlt. lia. }
    generalize dependent ((stop - start) / inject_Z (Z.of_nat (S m))).
    generalize dependent (inject_Z (Z.of_nat i)).
    generalize dependent (inject_Z (Z.of_nat j)).
    intros b a Hab h _ Hh _ _ _. nra.
Qed.

Lemma linspace_grid_witness :
  List.length (linspace 0 1 41) = 41%nat
  /\ (exists x, nth_error (linspace 0 1 41) 0 = Some x /\ x == 0)
  /\ (exists y, nth_error (linspace 0 1 41) (41 - 1) = Some y /\ y == 1)
  /\ (forall i x, nth_error (linspace 0 1 41) i = Some x -> 0 <= x <= 1)
  /\ (forall i j x y, (i < j)%nat ->
        nth_error (linspace 0 1 41) i = Some x ->
        nth_error (linspace 0 1 41) j = Some y ->
        x < y).
Proof.
  assert (0 < 1) as Hlt by reflexivity.
  assert (2 <= 41)%nat as Hnum by lia.
  exact (linspace_grid 0 1 41 Hlt Hnum).
Defined.
